(** * dps-file-upload: the SQL-dump core of [src/index.mjs]

    A shallow embedding of the four pure functions of [src/index.mjs] that
    make up the core (the encoding detector [decodeTextBuffer], the
    column-list helper [parseSqlColumns], the row tokenizer
    [parseValuesSection] and the aggregator [splitSqlByCategory]) together
    with the zero-category check of [handler], and the properties the
    specification states about them.  The last part adds the other pure
    code of the file ([sanitizeFileName], the choice of the file URL in
    [handler], the loop of [pollFileBatch] over given observations) and
    further properties of all of it.

    Conventions.
    - A JavaScript string is its sequence of UTF-16 code units; a code
      unit is a [Z] in [0, 65536).  String literals of the source are
      written [str "..."].
    - A [Buffer] is a list of bytes, a byte is a [Z] in [0, 256).
    - A JavaScript value that flows through the core is [undefined],
      [null] or a string.
    - A closure that mutates captured variables ([onRow]) is a state
      transformer; the captured variables are the state.
    - A [while] loop is a fuelled recursion that answers [None] when the
      fuel runs out; the theorems show that the fuel the definitions pass
      is always enough. *)

From Stdlib Require Import ZArith QArith String Ascii List Lia.
From stdpp Require Import base option list gmap.
Import ListNotations.

Local Open Scope Z_scope.

(** ** JavaScript strings and values *)

Module Js.

Definition codeunit := Z.
Abbreviation jsstring := (list Z).

(** The code unit of an ASCII character, and the string of a literal. *)
Definition chr (a : ascii) : codeunit := Z.of_N (N_of_ascii a).

Definition str (s : string) : jsstring := map chr (list_ascii_of_string s).

Inductive value : Type :=
| VUndefined
| VNull
| VString (s : jsstring).

#[global] Instance value_eq_dec : EqDecision value.
Proof. solve_decision. Defined.

(** [a ?? b]: [b] when [a] is [undefined] or [null]. *)
Definition nullish (a b : value) : value :=
  match a with
  | VUndefined | VNull => b
  | VString _ => a
  end.

(** [!v] for the values of the core: [undefined], [null] and the empty
    string are falsy, every other string is truthy. *)
Definition falsy (v : value) : bool :=
  match v with
  | VUndefined | VNull => true
  | VString s => bool_decide (s = [])
  end.

(** [arr[idx]]: [undefined] out of range. *)
Definition index (arr : list value) (idx : nat) : value :=
  default VUndefined (arr !! idx).

(** [obj[key]] / [obj.key] for an object built by plain assignments of
    own properties: [undefined] when the key was never assigned. *)
Definition prop (obj : gmap jsstring value) (key : jsstring) : value :=
  default VUndefined (obj !! key).

(** The characters matched by [\s] and stripped by [String.prototype.trim]:
    WhiteSpace and LineTerminator of ECMAScript. *)
Definition isWhiteSpace (c : codeunit) : bool :=
  ((9 <=? c) && (c <=? 13)) || (c =? 32) || (c =? 160) || (c =? 5760)
  || ((8192 <=? c) && (c <=? 8202)) || (c =? 8232) || (c =? 8233)
  || (c =? 8239) || (c =? 8287) || (c =? 12288) || (c =? 65279).

Fixpoint trimStart (s : jsstring) : jsstring :=
  match s with
  | c :: s' => if isWhiteSpace c then trimStart s' else s
  | [] => []
  end.

Definition trimEnd (s : jsstring) : jsstring := rev (trimStart (rev s)).

Definition trim (s : jsstring) : jsstring := trimEnd (trimStart s).

(** [s.split(sep)] for a one-character separator: the segments between
    the occurrences of [sep]; always at least one segment. *)
Fixpoint split (sep : codeunit) (s : jsstring) : list jsstring :=
  match s with
  | [] => [[]]
  | c :: s' =>
      if c =? sep then [] :: split sep s'
      else match split sep s' with
           | seg :: segs => (c :: seg) :: segs
           | [] => [[c]]
           end
  end.

(** [s.toUpperCase()] on the letters a-z.  The core compares the result
    with the ASCII literal ["NULL"] only, and no character outside a-z has
    an upper-case form made of the letters N, U, L alone, so the
    comparison is decided by this part of the mapping. *)
Definition toUpperCase (s : jsstring) : jsstring :=
  map (fun c => if (97 <=? c) && (c <=? 122) then c - 32 else c) s.

End Js.

Import Js.

(** ** [parseSqlColumns] and [decodeSqlValue] *)

(** [columnsText.split(",").map(col => col.trim().replace(/`/g, "")).filter(Boolean)] *)
Definition parseSqlColumns (columnsText : jsstring) : list jsstring :=
  filter (fun col => col <> [])
    (map (fun col => filter (fun c => c <> chr "`") (trim col))
       (split (chr ",") columnsText)).

Definition decodeSqlValue (v : jsstring) : value :=
  if bool_decide (v = []) then VString []
  else if bool_decide (toUpperCase v = str "NULL") then VNull
  else VString v.

(** ** The row tokenizer [parseValuesSection] *)

Section Tokenizer.

(** [S] is the state captured by the [onRow] callback. *)
Context {S : Type}.
Variable text : jsstring.
Variable columns : list jsstring.
Variable onRow : gmap jsstring value -> S -> S.

(** The local variables of the loop and the callback's state. *)
Record tok_state : Type := TokState {
  tok_i : nat;
  inString : bool;
  inRow : bool;
  current : jsstring;
  values : list value;
  tok_acc : S
}.

(** One iteration either goes on or leaves through [return i + 1]. *)
Inductive tok_outcome : Type :=
| Continue (st : tok_state)
| Return (endIndex : nat) (st : tok_state).

(** [text[i]]: [undefined] (here [None]) out of range. *)
Definition charAt (i : nat) : option codeunit := text !! i.

Definition is_char (ch : option codeunit) (a : ascii) : bool :=
  match ch with
  | Some c => c =? chr a
  | None => false
  end.

(** [current += ch]; an [undefined] is appended as its string. *)
Definition append_char (cur : jsstring) (ch : option codeunit) : jsstring :=
  match ch with
  | Some c => cur ++ [c]
  | None => cur ++ str "undefined"
  end.

(** [for (idx ...) row[columns[idx]] = values[idx] ?? null], from [idx]
    on, [cols] being the columns not yet visited. *)
Fixpoint fill_row (idx : nat) (cols : list jsstring) (vals : list value)
    (row : gmap jsstring value) : gmap jsstring value :=
  match cols with
  | [] => row
  | col :: cols' =>
      fill_row (Datatypes.S idx) cols' vals
        (<[col := nullish (index vals idx) VNull]> row)
  end.

Definition build_row (vals : list value) : gmap jsstring value :=
  fill_row 0 columns vals ∅.

(** The body of the [while] loop, lines 103-160. *)
Definition tok_step (st : tok_state) : tok_outcome :=
  let i := tok_i st in
  let ch := charAt i in
  if inString st then
    if is_char ch "'" && is_char (charAt (i + 1)) "'" then
      Continue (TokState (i + 2) true (inRow st)
                  (current st ++ str "'") (values st) (tok_acc st))
    else if is_char ch "'" then
      Continue (TokState (i + 1) false (inRow st)
                  (current st) (values st) (tok_acc st))
    else
      Continue (TokState (i + 1) true (inRow st)
                  (append_char (current st) ch) (values st) (tok_acc st))
  else if is_char ch "'" then
    Continue (TokState (i + 1) true (inRow st)
                (current st) (values st) (tok_acc st))
  else if is_char ch "(" then
    Continue (TokState (i + 1) false true [] [] (tok_acc st))
  else if is_char ch "," && inRow st then
    Continue (TokState (i + 1) false true []
                (values st ++ [decodeSqlValue (trim (current st))])
                (tok_acc st))
  else if is_char ch ")" && inRow st then
    let vals := values st ++ [decodeSqlValue (trim (current st))] in
    Continue (TokState (i + 1) false false [] vals
                (onRow (build_row vals) (tok_acc st)))
  else if is_char ch ";" && negb (inRow st) then
    Return (i + 1) st
  else
    Continue (TokState (i + 1) false (inRow st)
                (append_char (current st) ch) (values st) (tok_acc st)).

(** [while (i < len) { ... } return len;] *)
Fixpoint tok_loop (fuel : nat) (st : tok_state) : option (nat * tok_state) :=
  if (tok_i st <? length text)%nat then
    match fuel with
    | O => None
    | Datatypes.S fuel' =>
        match tok_step st with
        | Continue st' => tok_loop fuel' st'
        | Return endIndex st' => Some (endIndex, st')
        end
    end
  else Some (length text, st).

Definition tok_init (startIndex : nat) (acc : S) : tok_state :=
  TokState startIndex false false [] [] acc.

(** The run of the tokenizer with its final local state. *)
Definition tok_run (startIndex : nat) (acc : S) : option (nat * tok_state) :=
  tok_loop (length text - startIndex) (tok_init startIndex acc).

(** [parseValuesSection(text, startIndex, columns, onRow)]: the end
    offset and the callback's state after the rows were emitted. *)
Definition parseValuesSection (startIndex : nat) (acc : S) : option (nat * S) :=
  match tok_run startIndex acc with
  | Some (endIndex, st) => Some (endIndex, tok_acc st)
  | None => None
  end.

End Tokenizer.

Arguments tok_state : clear implicits.
Arguments tok_outcome : clear implicits.

(** The callback that records the emitted rows in order. *)
Definition collect (row : gmap jsstring value) (rows : list (gmap jsstring value)) :
    list (gmap jsstring value) :=
  rows ++ [row].

(** The rows the tokenizer emits, in order. *)
Definition emitted_rows (text : jsstring) (startIndex : nat) (columns : list jsstring) :
    option (list (gmap jsstring value)) :=
  match parseValuesSection text columns collect startIndex [] with
  | Some (_, rows) => Some rows
  | None => None
  end.

(** ** The statement locator: the regular expression of [splitSqlByCategory] *)

Module Regex.

(** The pattern is a sequence of atoms: a literal character, a character
    class under a greedy quantifier, and the two ends of capture group 1.
    With the [i] flag a literal is compared after canonicalisation, which
    for the ASCII letters of this pattern is upper-casing of a-z: a
    character above 127 is never canonicalised to an ASCII one.  The
    classes of the pattern hold no letters, so the flag does not change
    them. *)
Inductive atom : Type :=
  | Chr (a : ascii)
  | Opt (p : codeunit -> bool)
  | Star (p : codeunit -> bool)
  | Plus (p : codeunit -> bool)
  | GroupOpen
  | GroupClose.

Definition canonicalize (c : codeunit) : codeunit :=
  if (97 <=? c) && (c <=? 122) then c - 32 else c.

Definition ci_eq (c : codeunit) (a : ascii) : bool :=
  canonicalize c =? canonicalize (chr a).

(** A match: the offset after it and the bounds of group 1. *)
Definition result : Type := nat * (nat * nat).

(** [p*] followed by the continuation [k], greedy: take one more
    character first, and give it back when the rest fails. *)
Fixpoint greedy (p : codeunit -> bool) (k : jsstring -> nat -> option result)
    (s : jsstring) (pos : nat) : option result :=
  match s with
  | c :: s' =>
      if p c then
        match greedy p k s' (S pos) with
        | Some r => Some r
        | None => k s pos
        end
      else k s pos
  | [] => k s pos
  end.

(** The backtracking matcher: [s] is the text from offset [pos] on. *)
Fixpoint run (pat : list atom) : jsstring -> nat -> nat * nat -> option result :=
  match pat with
  | [] => fun _ pos cap => Some (pos, cap)
  | a :: pat' =>
      let k := run pat' in
      match a with
      | Chr x => fun s pos cap =>
          match s with
          | c :: s' => if ci_eq c x then k s' (S pos) cap else None
          | [] => None
          end
      | Opt p => fun s pos cap =>
          match s with
          | c :: s' =>
              if p c then
                match k s' (S pos) cap with
                | Some r => Some r
                | None => k s pos cap
                end
              else k s pos cap
          | [] => k s pos cap
          end
      | Star p => fun s pos cap => greedy p (fun s' pos' => k s' pos' cap) s pos
      | Plus p => fun s pos cap =>
          match s with
          | c :: s' =>
              if p c then greedy p (fun s'' pos' => k s'' pos' cap) s' (S pos)
              else None
          | [] => None
          end
      | GroupOpen => fun s pos cap => k s pos (pos, snd cap)
      | GroupClose => fun s pos cap => k s pos (fst cap, pos)
      end
  end.

(** The leftmost match at or after [pos]. *)
Fixpoint search (pat : list atom) (s : jsstring) (pos : nat) : option result :=
  match run pat s pos (O, O) with
  | Some r => Some r
  | None =>
      match s with
      | [] => None
      | _ :: s' => search pat s' (S pos)
      end
  end.

Definition literal (w : string) : list atom := map Chr (list_ascii_of_string w).

Definition one (a : ascii) (c : codeunit) : bool := c =? chr a.

(** [/INSERT\s+INTO\s+`?[^`(\s]*`?\s*\(([^)]+)\)\s*VALUES\s*/gi] *)
Definition insertRegex : list atom :=
  literal "INSERT" ++ [Plus isWhiteSpace] ++ literal "INTO" ++ [Plus isWhiteSpace]
  ++ [Opt (one "`")]
  ++ [Star (fun c => negb (one "`" c || one "(" c || isWhiteSpace c))]
  ++ [Opt (one "`")] ++ [Star isWhiteSpace]
  ++ [Chr "("; GroupOpen; Plus (fun c => negb (one ")" c)); GroupClose; Chr ")"]
  ++ [Star isWhiteSpace] ++ literal "VALUES" ++ [Star isWhiteSpace].

(** [regex.exec(text)] of a global regular expression whose [lastIndex]
    is [lastIndex]: the text of group 1 and the new [lastIndex], or
    [None] for [null]. *)
Definition exec (pat : list atom) (text : jsstring) (lastIndex : nat) :
    option (jsstring * nat) :=
  if (lastIndex <=? length text)%nat then
    match search pat (drop lastIndex text) lastIndex with
    | Some (e, (gs, ge)) => Some (take (ge - gs) (drop gs text), e)
    | None => None
    end
  else None.

(** A continuation is well behaved when a match it reports ends inside
    the text it was given. *)
Definition bounded (k : jsstring -> nat -> option result) : Prop :=
  forall s pos e cap, k s pos = Some (e, cap) -> (pos <= e <= pos + length s)%nat.

End Regex.

(** ** The aggregator and [splitSqlByCategory] *)

Record item : Type := Item {
  question : value;
  short : value;
  full : value
}.

#[global] Instance item_eq_dec : EqDecision item.
Proof. solve_decision. Defined.

(** A JavaScript [Map] from strings to arrays of items: its entries in
    insertion order, no key twice. *)
Module JsMap.

Definition t : Type := list (jsstring * list item).

Definition has (m : t) (k : jsstring) : bool :=
  bool_decide (k ∈ m.*1).

(** [m.get(k)], [None] for [undefined]. *)
Fixpoint get (m : t) (k : jsstring) : option (list item) :=
  match m with
  | [] => None
  | (k', v) :: m' => if bool_decide (k' = k) then Some v else get m' k
  end.

(** [m.set(k, v)]: a present key keeps its place, a new one goes last. *)
Fixpoint set (m : t) (k : jsstring) (v : list item) : t :=
  match m with
  | [] => [(k, v)]
  | (k', v') :: m' =>
      if bool_decide (k' = k) then (k, v) :: m' else (k', v') :: set m' k v
  end.

(** [m.get(k).push(x)]: the array stored under [k] grows in place. *)
Fixpoint push (m : t) (k : jsstring) (x : item) : t :=
  match m with
  | [] => []
  | (k', v) :: m' =>
      if bool_decide (k' = k) then (k', v ++ [x]) :: m' else (k', v) :: push m' k x
  end.

Definition size (m : t) : nat := length m.

End JsMap.

(** [String(v)] *)
Definition String_of (v : value) : jsstring :=
  match v with
  | VUndefined => str "undefined"
  | VNull => str "null"
  | VString s => s
  end.

(** The variables the [onRow] closure of [splitSqlByCategory] updates. *)
Record agg_state : Type := AggState {
  rowCount : nat;
  categoryMap : JsMap.t
}.

(** The closure passed as [onRow], lines 178-195. *)
Definition onRow (row : gmap jsstring value) (st : agg_state) : agg_state :=
  let rowCount' := S (rowCount st) in
  let categoryRaw := nullish (prop row (str "category_id")) (prop row (str "cat_id")) in
  if falsy categoryRaw then AggState rowCount' (categoryMap st)
  else
    let categoryRoot :=
      trim (default [] (head (split (chr ".") (String_of categoryRaw)))) in
    if bool_decide (categoryRoot = []) then AggState rowCount' (categoryMap st)
    else
      let question := nullish (prop row (str "question")) (VString []) in
      let shortText :=
        nullish (nullish (prop row (str "answer")) (prop row (str "description")))
          (VString []) in
      let fullText :=
        nullish (nullish (prop row (str "description")) (prop row (str "answer")))
          (VString []) in
      let m :=
        if JsMap.has (categoryMap st) categoryRoot then categoryMap st
        else JsMap.set (categoryMap st) categoryRoot [] in
      AggState rowCount' (JsMap.push m categoryRoot (Item question shortText fullText)).

Record stats : Type := Stats {
  inserts : nat;
  rows : nat;
  categories : nat
}.

Record parsed : Type := Parsed {
  parsed_map : JsMap.t;
  parsed_stats : stats
}.

(** [while ((match = insertRegex.exec(sqlText)) !== null) { ... }] with
    [lastIndex], [insertCount] and the state of the row callback as loop
    state.  The callback is a parameter so that the same loop can be run
    with the closure of the source and with [collect]. *)
Section Locator.

Context {S : Type}.
Variable rowCallback : gmap jsstring value -> S -> S.
Variable sqlText : jsstring.

Fixpoint split_loop (fuel : nat) (lastIndex insertCount : nat) (st : S) :
    option (nat * S) :=
  match Regex.exec Regex.insertRegex sqlText lastIndex with
  | None => Some (insertCount, st)
  | Some (group1, valuesStart) =>
      match fuel with
      | O => None
      | Datatypes.S fuel' =>
          let columns := parseSqlColumns group1 in
          match parseValuesSection sqlText columns rowCallback valuesStart st with
          | Some (endIndex, st') => split_loop fuel' endIndex (Datatypes.S insertCount) st'
          | None => None
          end
      end
  end.

End Locator.

Definition splitSqlByCategory (sqlText : jsstring) : option parsed :=
  match split_loop onRow sqlText (length sqlText) 0 0 (AggState 0 []) with
  | Some (insertCount, st) =>
      Some (Parsed (categoryMap st)
              (Stats insertCount (rowCount st) (JsMap.size (categoryMap st))))
  | None => None
  end.

(** Every row the tokenizer emits during a whole parse, in order. *)
Definition all_rows (sqlText : jsstring) : option (list (gmap jsstring value)) :=
  match split_loop collect sqlText (length sqlText) 0 0 [] with
  | Some (_, emitted) => Some emitted
  | None => None
  end.

(** ** The zero-category check of [handler], lines 338-343 *)

(** What the core hands to its caller: the error thrown when no category
    was produced, or the parse result. *)
Inductive core_result : Type :=
  | Failure (message : jsstring)
  | Success (p : parsed).

Definition check_categories (p : parsed) : core_result :=
  if (JsMap.size (parsed_map p) =? 0)%nat
  then Failure (str "No categories found in SQL file")
  else Success p.

Definition core (sqlText : jsstring) : option core_result :=
  match splitSqlByCategory sqlText with
  | Some p => Some (check_categories p)
  | None => None
  end.

(** ** The encoding detector [decodeTextBuffer] *)

(** [buf.toString("utf16le")]: one code unit per pair of bytes, low byte
    first; a trailing unpaired byte is ignored. *)
Fixpoint utf16le (buf : list Z) : jsstring :=
  match buf with
  | lo :: hi :: buf' => (lo + 256 * hi) :: utf16le buf'
  | _ => []
  end.

(** [buf[i]] as a number; an index out of range reads [undefined], which
    a buffer stores as 0. *)
Definition byteAt (buf : list Z) (i : nat) : Z := default 0 (buf !! i).

(** The offsets [i = 0, 2, 4, ...] with [i + 1 < n]. *)
Definition pair_offsets (n : nat) : list nat :=
  map (fun k => (2 * k)%nat) (seq 0 (n / 2)).

(** The counters of the sampling loop, lines 66-73. *)
Definition count_nul (buffer : list Z) (sampleLen : nat) : nat * nat :=
  fold_left
    (fun '(nulEven, nulOdd) i =>
       if bool_decide (buffer !! i = Some 0) then
         if (i mod 2 =? 0)%nat then (S nulEven, nulOdd) else (nulEven, S nulOdd)
       else (nulEven, nulOdd))
    (seq 0 sampleLen) (O, O).

(** [slots ? nul / slots : 0].  The source divides doubles; both operands
    are integers up to 512, for which the quotient of doubles compares
    with 0.3 and with another such quotient as the exact rational does. *)
Definition ratio (nul slots : nat) : Q :=
  if (slots =? 0)%nat then 0%Q
  else (inject_Z (Z.of_nat nul) / inject_Z (Z.of_nat slots))%Q.

Definition evenSlots (sampleLen : nat) : nat := ((sampleLen + 1) / 2)%nat.
Definition oddSlots (sampleLen : nat) : nat := (sampleLen / 2)%nat.

Section Detector.

(** [buf.toString("utf8")] of the platform. *)
Variable utf8 : list Z -> jsstring.

(** The bytes a buffer obtained from [Buffer.allocUnsafe] holds before
    it is written: whatever the memory held, by offset. *)
Variable uninit : nat -> Z.

Definition allocUnsafe (n : nat) : list Z := map uninit (seq 0 n).

(** [swapped = Buffer.allocUnsafe(src.length);
     for (i = 0; i + 1 < src.length; i += 2)
       { swapped[i] = src[i + 1]; swapped[i + 1] = src[i]; }] *)
Definition swap_pairs (src : list Z) : list Z :=
  fold_left
    (fun swapped i =>
       <[(i + 1)%nat := byteAt src i]> (<[i := byteAt src (i + 1)]> swapped))
    (pair_offsets (length src)) (allocUnsafe (length src)).

(** [decodeTextBuffer(buffer)] for a [Buffer], which is what [handler]
    passes; line 47 answers for other arguments. *)
Definition decodeTextBuffer (buffer : list Z) : jsstring :=
  if (2 <=? length buffer)%nat && (byteAt buffer 0 =? 255) && (byteAt buffer 1 =? 254)
  then utf16le (drop 2 buffer)
  else if (2 <=? length buffer)%nat && (byteAt buffer 0 =? 254) && (byteAt buffer 1 =? 255)
  then utf16le (swap_pairs (drop 2 buffer))
  else
    let sampleLen := Nat.min (length buffer) 1024 in
    let '(nulEven, nulOdd) := count_nul buffer sampleLen in
    let evenRatio := ratio nulEven (evenSlots sampleLen) in
    let oddRatio := ratio nulOdd (oddSlots sampleLen) in
    if negb (Qle_bool oddRatio (3 # 10)) || negb (Qle_bool evenRatio (3 # 10)) then
      if Qle_bool evenRatio oddRatio then utf16le buffer
      else utf16le (swap_pairs buffer)
    else utf8 buffer.

End Detector.

(** [Buffer.from(s, "utf16le")]: each code unit as two bytes, low first. *)
Definition encode_utf16le (s : jsstring) : list Z :=
  flat_map (fun c => [c mod 256; c / 256]) s.

(** The pairwise swap of the specification: every pair exchanged, a final
    unpaired byte kept in place. *)
Fixpoint swap_spec (buf : list Z) : list Z :=
  match buf with
  | a :: b :: buf' => b :: a :: swap_spec buf'
  | _ => buf
  end.

(** ** Notions the properties are stated with *)

(** Feeding a callback the rows of a list, first to last. *)
Definition feed {S : Type} (f : gmap jsstring value -> S -> S)
    (emitted : list (gmap jsstring value)) (a0 : S) : S :=
  fold_left (fun a row => f row a) emitted a0.

(** A tokenizer state whose recorded rows are replaced by the state the
    callback [f] reaches on them. *)
Definition lift {S : Type} (f : gmap jsstring value -> S -> S) (a0 : S)
    (st : tok_state (list (gmap jsstring value))) : tok_state S :=
  TokState (tok_i st) (inString st) (inRow st) (current st) (values st)
    (feed f (tok_acc st) a0).

(** A row object written as the list of its fields. *)
Definition field (name : string) (v : value) : jsstring * value := (str name, v).

Definition row_of (fields : list (jsstring * value)) : gmap jsstring value :=
  list_to_map fields.

(** The part of a string before the first occurrence of [sep]. *)
Fixpoint before_first (sep : codeunit) (s : jsstring) : jsstring :=
  match s with
  | [] => []
  | c :: s' => if c =? sep then [] else c :: before_first sep s'
  end.

(** A field is absent when it reads [undefined] or [null], and empty when
    it is the empty string. *)
Definition absent (v : value) : Prop := v = VUndefined \/ v = VNull.


(** The category value of a record: [category_id], and [cat_id] when
    [category_id] is absent. *)
Definition category_value (row : gmap jsstring value) : value :=
  match prop row (str "category_id") with
  | VString s => VString s
  | _ => prop row (str "cat_id")
  end.

(** The bucket key of a record: the trimmed first dot-segment of its
    category value, when that is not empty. *)
Definition bucket_key (row : gmap jsstring value) : option jsstring :=
  match category_value row with
  | VString s =>
      let key := trim (before_first (chr ".") s) in
      if bool_decide (key = []) then None else Some key
  | _ => None
  end.

(** The first of two values that is a string, else the empty string. *)
Definition first_string (a b : value) : value :=
  match a, b with
  | VString s, _ => VString s
  | _, VString s => VString s
  | _, _ => VString []
  end.

(** The CategorizedItem of a record. *)
Definition item_of (row : gmap jsstring value) : item :=
  Item (first_string (prop row (str "question")) VNull)
       (first_string (prop row (str "answer")) (prop row (str "description")))
       (first_string (prop row (str "description")) (prop row (str "answer"))).

(** The key and item a record contributes, if any. *)
Definition entry_of (row : gmap jsstring value) : option (jsstring * item) :=
  match bucket_key row with
  | Some k => Some (k, item_of row)
  | None => None
  end.

(** Lines 189-194: the item is appended to the bucket of [k], which is
    created empty when the key is new. *)
Definition add_item (m : JsMap.t) (k : jsstring) (x : item) : JsMap.t :=
  JsMap.push (if JsMap.has m k then m else JsMap.set m k []) k x.

(** The keys of a list in the order of their first occurrence. *)
Fixpoint first_seen (ks : list jsstring) : list jsstring :=
  match ks with
  | [] => []
  | k :: ks' => k :: filter (fun k' => k' <> k) (first_seen ks')
  end.

(** The items recorded under [k], in order. *)
Definition items_for (k : jsstring) (entries : list (jsstring * item)) : list item :=
  (filter (fun e => e.1 = k) entries).*2.

(** The number of items of a map, all buckets together. *)
Definition total_items (m : JsMap.t) : nat :=
  foldr (fun e n => (length e.2 + n)%nat) O m.

(** The map obtained from [m] by appending the entries in order. *)
Definition group_into (m : JsMap.t) (entries : list (jsstring * item)) : JsMap.t :=
  fold_left (fun m e => add_item m e.1 e.2) entries m.

(** ** The inputs of the specification's scenarios *)

Definition c1_text : jsstring :=
  str "INSERT INTO qa (cat_id, question, description) VALUES ('3', 'What?', 'Because.');".

Definition c2_text : jsstring :=
  str "INSERT INTO t (category_id, question, answer) VALUES (1, 'Q1''s text', 'A1'), (2, NULL, 'A2');".

Definition c2_columns : list jsstring :=
  [str "category_id"; str "question"; str "answer"].

(** The message of the error thrown on an empty category map. *)
Definition no_categories : jsstring := str "No categories found in SQL file".

(** A text with two rows of which one has no category. *)
Definition c10_text : jsstring :=
  str "INSERT INTO qa (cat_id, question) VALUES ('3', 'kept'), ('', 'dropped');".

(** A buffer with the big-endian mark and a remainder of odd length, and
    a string that starts with U+FEFF. *)
Definition c3_buffer : list Z := [254; 255; 0; 65; 66].

Definition c6_string : jsstring := 65279 :: str "aaaa".

(** The two ratios of the sample of a buffer. *)
Definition evenRatio_of (buffer : list Z) : Q :=
  let sampleLen := Nat.min (length buffer) 1024 in
  ratio (count_nul buffer sampleLen).1 (evenSlots sampleLen).

Definition oddRatio_of (buffer : list Z) : Q :=
  let sampleLen := Nat.min (length buffer) 1024 in
  ratio (count_nul buffer sampleLen).2 (oddSlots sampleLen).

(** A text that ends inside a string that is never closed. *)
Definition c8_text : jsstring := str "(1, 'a'), (2, 'never closed), (3, x);".

(** [s] starts with the word [w], letters compared without case. *)
Fixpoint starts_with_ci (w : list ascii) (s : jsstring) : bool :=
  match w, s with
  | [], _ => true
  | a :: w', c :: s' => Regex.ci_eq c a && starts_with_ci w' s'
  | _ :: _, [] => false
  end.

(** The word INSERT occurs in the text, in any case. *)
Definition mentions_insert (text : jsstring) : Prop :=
  exists i, starts_with_ci (list_ascii_of_string "INSERT") (drop i text) = true.

(** The statement of the second scenario with NULL in lower case. *)
Definition c2_text_lower : jsstring :=
  str "INSERT INTO t (category_id, question, answer) VALUES (1, 'Q1''s text', 'A1'), (2, null, 'A2');".

(** ** Further notions: encodings *)

(** The big-endian encoding of a string: each code unit as two bytes,
    high byte first. *)
Definition encode_utf16be (s : jsstring) : list Z :=
  flat_map (fun c => [c / 256; c mod 256]) s.

(** ** Further notions: the text of a values region *)

(** A result the loop reaches from a state, with some amount of fuel. *)
Definition tok_result {S : Type} (text : jsstring) (columns : list jsstring)
    (f : gmap jsstring value -> S -> S) (st : tok_state S)
    (r : nat * tok_state S) : Prop :=
  exists fuel, tok_loop text columns f fuel st = Some r.

(** A string literal of SQL: quotes doubled, between quotes. *)
Definition escape (body : jsstring) : jsstring :=
  flat_map (fun c => if c =? chr "'" then [chr "'"; chr "'"] else [c]) body.

Definition quote_sql (body : jsstring) : jsstring :=
  chr "'" :: escape body ++ [chr "'"].

(** Characters that are plain text inside a row, and between rows. *)
Definition bare_char (c : codeunit) : bool :=
  negb ((c =? chr "'") || (c =? chr "(") || (c =? chr ")") || (c =? chr ",")).

Definition gap_char (c : codeunit) : bool :=
  negb ((c =? chr "'") || (c =? chr "(") || (c =? chr ";")).

(** A field as written: plain text, then possibly a string literal and
    more plain text ([1], [NULL], ['it''s'], [ 'a' ]). *)
Record field_src : Type := FieldSrc {
  lead : jsstring;
  literal : option (jsstring * jsstring)
}.

Definition field_text (fd : field_src) : jsstring :=
  lead fd ++
  match literal fd with
  | Some (body, trail) => quote_sql body ++ trail
  | None => []
  end.

(** What the field holds: the plain text and the body of the literal. *)
Definition field_content (fd : field_src) : jsstring :=
  lead fd ++
  match literal fd with
  | Some (body, trail) => body ++ trail
  | None => []
  end.

Definition field_ok (fd : field_src) : bool :=
  forallb bare_char (lead fd) &&
  match literal fd with
  | Some (_, trail) => forallb bare_char trail
  | None => true
  end.

(** The fields of a row separated by commas, and the row in its
    parentheses. *)
Fixpoint fields_text (fds : list field_src) : jsstring :=
  match fds with
  | [] => []
  | [fd] => field_text fd
  | fd :: fds' => field_text fd ++ chr "," :: fields_text fds'
  end.

Definition row_text (fds : list field_src) : jsstring :=
  chr "(" :: fields_text fds ++ [chr ")"].

(** Rows, each after a gap of plain text (a comma, white space). *)
Definition row_src : Type := jsstring * list field_src.

Definition rows_text (rws : list row_src) : jsstring :=
  flat_map (fun rw => rw.1 ++ row_text rw.2) rws.

Definition row_ok (rw : row_src) : bool :=
  forallb gap_char rw.1 && forallb field_ok rw.2
  && negb (bool_decide (rw.2 = [])).

(** The values the tokenizer is to find in a row. *)
Definition row_values (fds : list field_src) : list value :=
  map (fun fd => decodeSqlValue (trim (field_content fd))) fds.

(** The values region [(1, 'Q1''s text', 'A1'), (2, NULL, 'A2')] of the
    second scenario, as rows of fields. *)
Definition c2_rows : list row_src :=
  [ ([], [FieldSrc (str "1") None;
          FieldSrc (str " ") (Some (str "Q1's text", []));
          FieldSrc (str " ") (Some (str "A1", []))]);
    (str ", ", [FieldSrc (str "2") None;
                FieldSrc (str " NULL") None;
                FieldSrc (str " ") (Some (str "A2", []))]) ].

(** ** Further notions: a column list as written *)

(** A column name between backticks, and a list of such names separated
    by a comma and a space. *)
Definition tick (name : jsstring) : jsstring := chr "`" :: name ++ [chr "`"].

Fixpoint cols_text (names : list jsstring) : jsstring :=
  match names with
  | [] => []
  | [n] => tick n
  | n :: rest => tick n ++ chr "," :: chr " " :: cols_text rest
  end.

(** A name that can be written so: not empty, without white space, comma
    or backtick. *)
Definition name_char (c : codeunit) : bool :=
  negb (isWhiteSpace c || (c =? chr ",") || (c =? chr "`")).

Definition name_ok (name : jsstring) : bool :=
  negb (bool_decide (name = [])) && forallb name_char name.

(** ** [sanitizeFileName] *)

(** The class [\w] of a regular expression without flags, and the class
    [[\w.\-]] whose complement [sanitizeFileName] replaces. *)
Definition isWord (c : codeunit) : bool :=
  ((65 <=? c) && (c <=? 90)) || ((97 <=? c) && (c <=? 122))
  || ((48 <=? c) && (c <=? 57)) || (c =? chr "_").

Definition isNameChar (c : codeunit) : bool :=
  isWord c || (c =? chr ".") || (c =? chr "-").

Definition isUnderscore (c : codeunit) : bool := c =? chr "_".

(** [s.replace(/[class]+/g, "_")]: every maximal run of characters of the
    class becomes one underscore, written where the run ends. *)
Fixpoint replace_runs (p : codeunit -> bool) (s : jsstring) : jsstring :=
  match s with
  | [] => []
  | c :: s' =>
      if p c then
        match s' with
        | c' :: _ => if p c' then replace_runs p s' else chr "_" :: replace_runs p s'
        | [] => [chr "_"]
        end
      else c :: replace_runs p s'
  end.

(** The string without its leading run, and without its trailing run, of
    characters of a class. *)
Fixpoint skip_run (p : codeunit -> bool) (s : jsstring) : jsstring :=
  match s with
  | c :: s' => if p c then skip_run p s' else s
  | [] => []
  end.

Definition drop_last_run (p : codeunit -> bool) (s : jsstring) : jsstring :=
  rev (skip_run p (rev s)).

(** [sanitizeFileName(name)], lines 16-23; the last replacement
    [/^_+|_+$/g] removes the leading and the trailing run of
    underscores. *)
Definition sanitizeFileName (name : value) : jsstring :=
  match name with
  | VString s =>
      if bool_decide (s = []) then str "file"
      else
        let cleaned :=
          drop_last_run isUnderscore
            (skip_run isUnderscore
               (replace_runs isUnderscore
                  (replace_runs (fun c => negb (isNameChar c)) s))) in
        if bool_decide (cleaned = []) then str "file" else cleaned
  | _ => str "file"
  end.

(** Two underscores in a row somewhere in the string. *)
Fixpoint double_underscore (s : jsstring) : bool :=
  match s with
  | a :: s' =>
      match s' with
      | b :: _ => (isUnderscore a && isUnderscore b) || double_underscore s'
      | [] => false
      end
  | [] => false
  end.

(** The names [sanitizeFileName] leaves as they are. *)
Definition clean_name (s : jsstring) : Prop :=
  s <> [] /\ forallb isNameChar s = true /\ double_underscore s = false /\
  head s <> Some (chr "_") /\ last s <> Some (chr "_").

(** ** The file URL of [handler], lines 303-311 *)

(** [a || b] on the values of the model. *)
Definition js_or (a b : value) : value := if falsy a then b else a.

Definition isSlash (c : codeunit) : bool := c =? chr "/".

(** [`${base.replace(/\/+$/, "")}/${fileName.replace(/^\/+/, "")}`] *)
Definition join_url (base fileName : jsstring) : jsstring :=
  drop_last_run isSlash base ++ chr "/" :: skip_run isSlash fileName.

(** The fields of the payload item and of the source that name the file,
    each a string, [undefined] or [null]. *)
Record url_fields : Type := UrlFields {
  originFileUrl : value;
  payloadFileUrl : value;
  sourceFileUrl : value;
  simulatorFileUrl : value;
  simulatorBaseUrl : value;
  fileName : value
}.

Definition missing_url : jsstring :=
  str "Missing fileUrl or simulatorBaseUrl + payload[0].fileName".

(** The URL to download, or the message of the error thrown. *)
Definition select_file_url (u : url_fields) : jsstring + jsstring :=
  let fileUrl :=
    js_or (originFileUrl u)
      (js_or (payloadFileUrl u)
         (js_or (sourceFileUrl u)
            (js_or (simulatorFileUrl u)
               (if negb (falsy (simulatorBaseUrl u)) && negb (falsy (fileName u))
                then VString (join_url (String_of (simulatorBaseUrl u))
                                (String_of (fileName u)))
                else VNull)))) in
  if falsy fileUrl then inr missing_url else inl (String_of fileUrl).

(** ** [pollFileBatch], lines 248-268 *)







(** The header of a statement for the table [t] with the columns of the
    second scenario, up to the key word VALUES. *)
Definition dump_header : jsstring :=
  str "INSERT INTO t (category_id, question, answer) VALUES".

(** A statement of a dump as written: text before it without the letter
    I, the header, white space, the rows, a gap and the semicolon. *)
Record stmt_src : Type := StmtSrc {
  st_lead : jsstring;
  st_ws : jsstring;
  st_rows : list row_src;
  st_gap : jsstring
}.

Definition stmt_text (st : stmt_src) : jsstring :=
  st_lead st ++ dump_header ++ st_ws st ++ rows_text (st_rows st) ++ st_gap st ++ [chr ";"].

Definition stmt_ok (st : stmt_src) : bool :=
  forallb (fun c => negb (Regex.ci_eq c "I")) (st_lead st)
  && forallb isWhiteSpace (st_ws st)
  && forallb row_ok (st_rows st)
  && forallb gap_char (st_gap st)
  && match head (rows_text (st_rows st) ++ st_gap st) with
     | Some c => negb (isWhiteSpace c)
     | None => true
     end.

(** The records of the rows of a statement, under the columns of the
    header. *)
Definition stmt_records (st : stmt_src) : list (gmap jsstring value) :=
  map (fun rw => build_row c2_columns (row_values rw.2)) (st_rows st).

(** The second scenario as a dump of one statement. *)
Definition c2_dump : list stmt_src := [StmtSrc [] (str " ") c2_rows []].

(** * Properties *)

(** ** The tokenizer terminates and stays within the text *)

Section TokenizerFacts.

Context {S : Type}.
Variable text : jsstring.
Variable columns : list jsstring.
Variable f : gmap jsstring value -> S -> S.

Local Abbreviation step := (tok_step text columns f).
Local Abbreviation loop := (tok_loop text columns f).

(** An iteration that goes on moves the cursor forward, by one or two. *)
Lemma tok_step_continue st st' :
  step st = Continue st' ->
  (tok_i st < tok_i st' <= tok_i st + 2)%nat.
Proof.
  unfold tok_step. intros H.
  repeat match type of H with
         | (if ?b then _ else _) = _ => destruct b
         end; inversion H; subst; simpl; lia.
Qed.

(** The only early exit is a [;] outside a row and outside a string,
    and it leaves the local state as it was. *)
Lemma tok_step_return st e st' :
  step st = Return e st' ->
  st' = st /\ e = (tok_i st + 1)%nat /\
  inString st = false /\ inRow st = false /\
  charAt text (tok_i st) = Some (chr ";").
Proof.
  unfold tok_step. intros H.
  destruct (inString st) eqn:Hs.
  - repeat match type of H with
           | (if ?b then _ else _) = _ => destruct b
           end; inversion H.
  - destruct (is_char (charAt text (tok_i st)) "'"); [inversion H|].
    destruct (is_char (charAt text (tok_i st)) "("); [inversion H|].
    destruct (is_char (charAt text (tok_i st)) "," && inRow st); [inversion H|].
    destruct (is_char (charAt text (tok_i st)) ")" && inRow st); [inversion H|].
    destruct (is_char (charAt text (tok_i st)) ";" && negb (inRow st)) eqn:Hsemi;
      [|inversion H].
    injection H as <- <-. apply andb_prop in Hsemi as [Hc Hr].
    apply negb_true_iff in Hr.
    repeat split; auto.
    unfold is_char in Hc. destruct (charAt text (tok_i st)); [|discriminate].
    apply Z.eqb_eq in Hc. now subst.
Qed.

(** With fuel for every remaining character the loop returns. *)
Lemma tok_loop_total fuel st :
  (length text - tok_i st <= fuel)%nat ->
  exists e st', loop fuel st = Some (e, st').
Proof.
  revert st. induction fuel as [|fuel IH]; intros st Hfuel; simpl.
  - destruct (tok_i st <? length text)%nat eqn:Hlt; [|eauto].
    apply Nat.ltb_lt in Hlt. lia.
  - destruct (tok_i st <? length text)%nat eqn:Hlt; [|eauto].
    destruct (step st) as [st'|e st'] eqn:Hstep; [|eauto].
    apply tok_step_continue in Hstep. apply IH. lia.
Qed.

(** The end offset is never beyond the text, and never before the
    cursor the loop started from (or the end of the text, when the
    cursor is beyond it). *)
Lemma tok_loop_bounds fuel st e st' :
  loop fuel st = Some (e, st') ->
  (Nat.min (tok_i st) (length text) <= e <= length text)%nat.
Proof.
  revert st. induction fuel as [|fuel IH]; intros st; simpl.
  - destruct (tok_i st <? length text)%nat eqn:Hlt; [discriminate|].
    intros [= <- <-]. lia.
  - destruct (tok_i st <? length text)%nat eqn:Hlt.
    + apply Nat.ltb_lt in Hlt.
      destruct (step st) as [st1|e1 st1] eqn:Hstep.
      * intros Hloop. apply tok_step_continue in Hstep.
        apply IH in Hloop. lia.
      * intros [= <- <-]. apply tok_step_return in Hstep as (_ & -> & _). lia.
    + intros [= <- <-]. lia.
Qed.

End TokenizerFacts.

(** ** The callback only sees the emitted rows

    Running the tokenizer, or the whole locator loop, with a callback [f]
    gives the state obtained by feeding [f] the rows that [collect]
    records, one after the other. *)

Section Feed.

Context {S : Type}.
Variable text : jsstring.
Variable f : gmap jsstring value -> S -> S.
Variable a0 : S.

Local Abbreviation lift := (lift f a0).

Lemma feed_collect row emitted :
  feed f (collect row emitted) a0 = f row (feed f emitted a0).
Proof. unfold feed, collect. now rewrite fold_left_app. Qed.

Lemma tok_step_lift columns st :
  tok_step text columns f (lift st) =
  match tok_step text columns collect st with
  | Continue st' => Continue (lift st')
  | Return e st' => Return e (lift st')
  end.
Proof.
  destruct st as [i s r cur vals emitted].
  unfold tok_step, lift; simpl.
  repeat match goal with
         | |- context [if ?b then _ else _] => destruct b
         end; simpl; try reflexivity.
  now rewrite feed_collect.
Qed.

Lemma tok_loop_lift columns fuel st :
  tok_loop text columns f fuel (lift st) =
  match tok_loop text columns collect fuel st with
  | Some (e, st') => Some (e, lift st')
  | None => None
  end.
Proof.
  revert st. induction fuel as [|fuel IH]; intros st; simpl.
  - now destruct (tok_i st <? length text)%nat.
  - destruct (tok_i st <? length text)%nat; [|reflexivity].
    rewrite tok_step_lift.
    destruct (tok_step text columns collect st) as [st'|e st']; [apply IH|reflexivity].
Qed.

Lemma parseValuesSection_feed columns start emitted :
  parseValuesSection text columns f start (feed f emitted a0) =
  match parseValuesSection text columns collect start emitted with
  | Some (e, emitted') => Some (e, feed f emitted' a0)
  | None => None
  end.
Proof.
  unfold parseValuesSection, tok_run.
  change (tok_init start (feed f emitted a0)) with (lift (tok_init start emitted)).
  rewrite tok_loop_lift.
  now destruct (tok_loop text columns collect _ _) as [[e st']|].
Qed.

Lemma split_loop_feed fuel lastIndex insertCount emitted :
  split_loop f text fuel lastIndex insertCount (feed f emitted a0) =
  match split_loop collect text fuel lastIndex insertCount emitted with
  | Some (n, emitted') => Some (n, feed f emitted' a0)
  | None => None
  end.
Proof.
  revert lastIndex insertCount emitted.
  induction fuel as [|fuel IH]; intros lastIndex insertCount emitted; simpl.
  - now destruct (Regex.exec _ _ _) as [[g v]|].
  - destruct (Regex.exec _ _ _) as [[g v]|]; [|reflexivity].
    rewrite parseValuesSection_feed.
    destruct (parseValuesSection text _ collect v emitted) as [[e emitted']|];
      [apply IH|reflexivity].
Qed.

End Feed.

(** ** The locator makes progress *)

Module RegexFacts.
Import Regex.

Lemma greedy_bounded p k : bounded k -> bounded (greedy p k).
Proof.
  intros Hk s. induction s as [|c s IH]; intros pos e cap; simpl.
  - apply Hk.
  - destruct (p c).
    + destruct (greedy p k s (S pos)) as [[e' cap']|] eqn:Hg.
      * intros [= -> ->]. apply IH in Hg. simpl. lia.
      * intros H. apply Hk in H. simpl in H. lia.
    + intros H. apply Hk in H. simpl in H. lia.
Qed.

Lemma run_bounded pat cap : bounded (fun s pos => run pat s pos cap).
Proof.
  revert cap. induction pat as [|a pat IH]; intros cap s pos e cap'; simpl.
  - intros [= -> _]. lia.
  - destruct a; simpl.
    + destruct s as [|c s]; [discriminate|].
      destruct (ci_eq c a); [|discriminate].
      intros H. apply IH in H. simpl. lia.
    + destruct s as [|c s]; [apply IH|].
      destruct (p c); [|apply IH].
      destruct (run pat s (S pos) cap) as [[e1 c1]|] eqn:H1.
      * intros [= -> ->]. apply IH in H1. simpl. lia.
      * apply IH.
    + apply (greedy_bounded p (fun s' pos' => run pat s' pos' cap) (IH cap)).
    + destruct s as [|c s]; [discriminate|].
      destruct (p c); [|discriminate].
      intros H.
      apply (greedy_bounded p (fun s' pos' => run pat s' pos' cap) (IH cap)) in H.
      simpl. lia.
    + apply IH.
    + apply IH.
Qed.

(** A pattern that starts with a literal consumes at least a character. *)
Lemma run_progress x pat s pos cap e cap' :
  run (Chr x :: pat) s pos cap = Some (e, cap') ->
  (pos < e <= pos + length s)%nat.
Proof.
  simpl. destruct s as [|c s]; [discriminate|].
  destruct (ci_eq c x); [|discriminate].
  intros H. apply run_bounded in H. simpl. lia.
Qed.

Lemma search_progress x pat s pos e cap :
  search (Chr x :: pat) s pos = Some (e, cap) ->
  (pos < e <= pos + length s)%nat.
Proof.
  revert pos. induction s as [|c s IH]; intros pos.
  - simpl. discriminate.
  - cbn [search].
    destruct (run (Chr x :: pat) (c :: s) pos (O, O)) as [[e1 c1]|] eqn:Hrun.
    + intros [= -> ->]. now apply run_progress in Hrun.
    + intros H. apply IH in H. simpl. lia.
Qed.

(** A successful [exec] moves [lastIndex] forward and keeps it within
    the text. *)
Lemma exec_progress text lastIndex g e :
  exec insertRegex text lastIndex = Some (g, e) ->
  (lastIndex < e <= length text)%nat.
Proof.
  unfold exec.
  destruct (lastIndex <=? length text)%nat eqn:Hle; [|discriminate].
  apply Nat.leb_le in Hle.
  destruct (search insertRegex (drop lastIndex text) lastIndex) as [[e1 [gs ge]]|] eqn:Hs;
    [|discriminate].
  intros [= _ ->].
  apply (search_progress "I") in Hs. rewrite length_drop in Hs. lia.
Qed.

End RegexFacts.

(** ** The whole parse terminates *)

Section LocatorFacts.

Context {S : Type}.
Variable f : gmap jsstring value -> S -> S.
Variable text : jsstring.

Lemma parseValuesSection_total columns start a :
  exists e a',
    parseValuesSection text columns f start a = Some (e, a') /\
    (Nat.min start (length text) <= e <= length text)%nat.
Proof.
  unfold parseValuesSection, tok_run.
  destruct (tok_loop_total text columns f (length text - start) (tok_init start a))
    as (e & st' & Hloop); [simpl; lia|].
  rewrite Hloop. exists e, (tok_acc st'). split; [reflexivity|].
  apply tok_loop_bounds in Hloop. exact Hloop.
Qed.

Lemma split_loop_total fuel lastIndex insertCount a :
  (length text - lastIndex <= fuel)%nat ->
  exists n a', split_loop f text fuel lastIndex insertCount a = Some (n, a').
Proof.
  revert lastIndex insertCount a.
  induction fuel as [|fuel IH]; intros lastIndex insertCount a Hfuel; simpl.
  - destruct (Regex.exec _ _ _) as [[g v]|] eqn:Hexec; [|eauto].
    apply RegexFacts.exec_progress in Hexec. lia.
  - destruct (Regex.exec _ _ _) as [[g v]|] eqn:Hexec; [|eauto].
    apply RegexFacts.exec_progress in Hexec.
    destruct (parseValuesSection_total (parseSqlColumns g) v a) as (e & a' & -> & He).
    apply IH. lia.
Qed.

End LocatorFacts.

(** ** The insertion-ordered map *)

Module JsMapFacts.
Import JsMap.

Lemma has_true m k : has m k = true <-> k ∈ m.*1.
Proof. unfold has. apply bool_decide_eq_true. Qed.

Lemma has_false m k : has m k = false <-> k ∉ m.*1.
Proof. unfold has. apply bool_decide_eq_false. Qed.

Lemma get_None m k : get m k = None <-> k ∉ m.*1.
Proof.
  induction m as [|[k' v] m IH]; csimpl.
  - split; [intros _; apply not_elem_of_nil|reflexivity].
  - rewrite not_elem_of_cons. case_bool_decide; subst.
    + split; [discriminate|intros [? _]; congruence].
    + rewrite IH. split; [intros ?; split; [congruence|assumption]|intros [_ ?]; assumption].
Qed.

Lemma set_new m k v : k ∉ m.*1 -> set m k v = m ++ [(k, v)].
Proof.
  induction m as [|[k' v'] m IH]; csimpl; [reflexivity|].
  rewrite not_elem_of_cons. intros [Hne Hnot].
  case_bool_decide; [congruence|]. now rewrite IH.
Qed.

Lemma push_keys m k x : (push m k x).*1 = m.*1.
Proof.
  induction m as [|[k' v] m IH]; csimpl; [reflexivity|].
  case_bool_decide; csimpl; [reflexivity|]. now rewrite IH.
Qed.

Lemma get_push_eq m k x : get (push m k x) k = (fun v => v ++ [x]) <$> get m k.
Proof.
  induction m as [|[k' v] m IH]; simpl; [reflexivity|].
  case_bool_decide; simpl.
  - now rewrite bool_decide_eq_true_2.
  - now rewrite bool_decide_eq_false_2.
Qed.

Lemma get_push_ne m k k' x : k <> k' -> get (push m k x) k' = get m k'.
Proof.
  intros Hne. induction m as [|[k1 v] m IH]; simpl; [reflexivity|].
  case_bool_decide; simpl.
  - subst. now rewrite !bool_decide_eq_false_2.
  - now rewrite IH.
Qed.

Lemma get_snoc m k v k' :
  get (m ++ [(k, v)]) k' =
  match get m k' with
  | Some v' => Some v'
  | None => if bool_decide (k = k') then Some v else None
  end.
Proof.
  induction m as [|[k1 v1] m IH]; simpl; [reflexivity|].
  destruct (bool_decide (k1 = k')); [reflexivity|exact IH].
Qed.

Lemma total_items_app m1 m2 :
  total_items (m1 ++ m2) = (total_items m1 + total_items m2)%nat.
Proof.
  unfold total_items. induction m1 as [|e m1 IH]; simpl; [reflexivity|].
  rewrite IH. lia.
Qed.

Lemma total_items_push m k x :
  k ∈ m.*1 -> total_items (push m k x) = S (total_items m).
Proof.
  induction m as [|[k' v] m IH]; csimpl.
  - intros H. now apply not_elem_of_nil in H.
  - rewrite elem_of_cons. intros Hin. case_bool_decide; csimpl.
    + unfold total_items; simpl. rewrite length_app. simpl. lia.
    + destruct Hin as [->|Hin]; [congruence|].
      unfold total_items in *; simpl. rewrite (IH Hin). lia.
Qed.

(** What appending an item does to the keys, to each bucket and to the
    number of items. *)
Lemma add_item_keys m k x :
  (add_item m k x).*1 = if bool_decide (k ∈ m.*1) then m.*1 else m.*1 ++ [k].
Proof.
  unfold add_item, has. rewrite push_keys.
  case_bool_decide as Hin; [reflexivity|].
  rewrite (set_new _ _ _ Hin), fmap_app. reflexivity.
Qed.

Lemma add_item_get_eq m k x :
  get (add_item m k x) k = Some (default [] (get m k) ++ [x]).
Proof.
  unfold add_item, has. rewrite get_push_eq.
  case_bool_decide as Hin.
  - destruct (get m k) eqn:Hget; [reflexivity|].
    apply get_None in Hget. contradiction.
  - rewrite (set_new _ _ _ Hin), get_snoc.
    apply get_None in Hin. rewrite Hin. now rewrite bool_decide_eq_true_2.
Qed.

Lemma add_item_get_ne m k k' x : k <> k' -> get (add_item m k x) k' = get m k'.
Proof.
  intros Hne. unfold add_item, has. rewrite (get_push_ne _ _ _ _ Hne).
  case_bool_decide as Hin; [reflexivity|].
  rewrite (set_new _ _ _ Hin), get_snoc.
  destruct (get m k'); [reflexivity|]. now rewrite bool_decide_eq_false_2.
Qed.

Lemma add_item_total m k x : total_items (add_item m k x) = S (total_items m).
Proof.
  unfold add_item, has. case_bool_decide as Hin.
  - now apply total_items_push.
  - rewrite (set_new _ _ _ Hin), total_items_push.
    + rewrite total_items_app. unfold total_items at 2. simpl. lia.
    + rewrite fmap_app. apply elem_of_app. right. now apply list_elem_of_singleton.
Qed.

Lemma add_item_NoDup m k x : NoDup m.*1 -> NoDup (add_item m k x).*1.
Proof.
  intros Hnd. rewrite add_item_keys. case_bool_decide as Hin; [exact Hnd|].
  apply NoDup_app. repeat split; [exact Hnd| |apply NoDup_singleton].
  intros y Hy Hy'. apply list_elem_of_singleton in Hy'. now subst.
Qed.

End JsMapFacts.

(** ** The aggregator, record by record *)

Lemma split_head sep s : head (split sep s) = Some (before_first sep s).
Proof.
  induction s as [|c s IH]; simpl; [reflexivity|].
  destruct (c =? sep); [reflexivity|].
  destruct (split sep s) as [|seg segs]; simpl in *; [discriminate|].
  now injection IH as ->.
Qed.

Lemma nullish_category row :
  nullish (prop row (str "category_id")) (prop row (str "cat_id")) = category_value row.
Proof. unfold category_value. now destruct (prop row (str "category_id")). Qed.

Lemma nullish_first_string a b :
  nullish (nullish a b) (VString []) = first_string a b.
Proof. now destruct a, b. Qed.

Lemma nullish_first_string_1 a : nullish a (VString []) = first_string a VNull.
Proof. now destruct a. Qed.

(** The closure counts the row and appends the record's entry, if it has
    one, to the map. *)
Lemma onRow_entry row st :
  onRow row st =
  AggState (S (rowCount st))
    (match entry_of row with
     | Some (k, x) => add_item (categoryMap st) k x
     | None => categoryMap st
     end).
Proof.
  unfold onRow, entry_of, bucket_key.
  rewrite nullish_category, !nullish_first_string, nullish_first_string_1.
  destruct (category_value row) as [| |s]; simpl; try reflexivity.
  rewrite split_head; simpl.
  destruct (bool_decide (s = [])) eqn:Hs.
  - apply bool_decide_eq_true in Hs. subst s. reflexivity.
  - destruct (bool_decide (trim (before_first (chr ".") s) = [])); reflexivity.
Qed.

(** ** The aggregator over a whole list of rows *)

Lemma feed_onRow emitted st :
  feed onRow emitted st =
  AggState (rowCount st + length emitted)
    (group_into (categoryMap st) (omap entry_of emitted)).
Proof.
  revert st. induction emitted as [|row emitted IH]; intros st.
  - destruct st as [n m]. simpl. f_equal. lia.
  - change (feed onRow (row :: emitted) st) with (feed onRow emitted (onRow row st)).
    rewrite IH, onRow_entry. simpl. f_equal; [lia|].
    now destruct (entry_of row) as [[k x]|].
Qed.

Lemma elem_of_first_seen k ks : k ∈ first_seen ks <-> k ∈ ks.
Proof.
  induction ks as [|a ks IH]; simpl; [reflexivity|].
  rewrite !elem_of_cons, list_elem_of_filter, IH.
  destruct (decide (k = a)) as [->|Hne]; [tauto|]. tauto.
Qed.

Lemma first_seen_snoc ks k :
  first_seen (ks ++ [k]) =
  if bool_decide (k ∈ ks) then first_seen ks else first_seen ks ++ [k].
Proof.
  induction ks as [|a ks IH]; simpl.
  - reflexivity.
  - rewrite IH. destruct (decide (k = a)) as [->|Hne].
    + rewrite (bool_decide_eq_true_2 (a ∈ a :: ks)) by (apply elem_of_cons; now left).
      case_bool_decide; [reflexivity|].
      rewrite filter_app, filter_cons_False by (intros H'; now apply H').
      now rewrite app_nil_r.
    + case_bool_decide as Hin.
      * rewrite bool_decide_eq_true_2 by (apply elem_of_cons; now right). reflexivity.
      * rewrite bool_decide_eq_false_2
          by (rewrite elem_of_cons; intros [?|?]; [congruence|contradiction]).
        rewrite filter_app, filter_cons_True by exact Hne. reflexivity.
Qed.

Lemma first_seen_NoDup ks : NoDup (first_seen ks).
Proof.
  induction ks as [|a ks IH]; simpl; [constructor|].
  constructor.
  - rewrite list_elem_of_In, <- list_elem_of_In, list_elem_of_filter. intros [H _]. now apply H.
  - now apply NoDup_filter.
Qed.

Lemma items_for_snoc k entries e :
  items_for k (entries ++ [e]) =
  if bool_decide (e.1 = k) then items_for k entries ++ [e.2] else items_for k entries.
Proof.
  unfold items_for. rewrite filter_app. case_bool_decide as He.
  - rewrite (filter_cons_True _ e []) by exact He. now rewrite fmap_app.
  - rewrite (filter_cons_False _ e []) by exact He. now rewrite app_nil_r.
Qed.

Lemma items_for_absent k entries : k ∉ entries.*1 -> items_for k entries = [].
Proof.
  unfold items_for. induction entries as [|e entries IH]; csimpl; [reflexivity|].
  rewrite not_elem_of_cons. intros [Hne Hnot].
  rewrite filter_cons_False by congruence. now apply IH.
Qed.

Section Grouping.

Variable entries : list (jsstring * item).

(** Keys appear in the order of their first entry. *)
Lemma group_keys : (group_into [] entries).*1 = first_seen entries.*1.
Proof.
  unfold group_into. induction entries as [|e es IH] using rev_ind; [reflexivity|].
  rewrite fold_left_app, fmap_app. simpl.
  rewrite JsMapFacts.add_item_keys, IH, first_seen_snoc.
  assert (e.1 ∈ first_seen es.*1 <-> e.1 ∈ es.*1) as Hiff by apply elem_of_first_seen.
  repeat case_bool_decide; tauto.
Qed.

(** A bucket holds the items of its key in the order of the entries. *)
Lemma group_get k :
  JsMap.get (group_into [] entries) k =
  if bool_decide (k ∈ entries.*1) then Some (items_for k entries) else None.
Proof.
  unfold group_into. induction entries as [|e es IH] using rev_ind.
  - reflexivity.
  - rewrite fold_left_app, fmap_app, items_for_snoc. simpl.
    destruct (decide (e.1 = k)) as [He|He].
    + subst k. rewrite JsMapFacts.add_item_get_eq, IH.
      rewrite (bool_decide_eq_true_2 (e.1 = e.1)) by reflexivity.
      rewrite (bool_decide_eq_true_2 (e.1 ∈ es.*1 ++ [e.1]))
        by (apply elem_of_app; right; now apply list_elem_of_singleton).
      case_bool_decide as Hin; simpl; [reflexivity|].
      now rewrite (items_for_absent _ _ Hin).
    + rewrite (JsMapFacts.add_item_get_ne _ _ _ _ He), IH.
      rewrite (bool_decide_eq_false_2 (e.1 = k)) by exact He.
      assert (k ∈ es.*1 ++ [e.1] <-> k ∈ es.*1) as Hiff.
      { rewrite elem_of_app, list_elem_of_singleton. split; [intros [?|?]|]; try tauto.
        congruence. }
      repeat case_bool_decide; tauto.
Qed.

Lemma group_total : total_items (group_into [] entries) = length entries.
Proof.
  unfold group_into. induction entries as [|e es IH] using rev_ind; [reflexivity|].
  rewrite fold_left_app, length_app. simpl.
  rewrite JsMapFacts.add_item_total, IH. lia.
Qed.

End Grouping.

(** ** The whole parse as a grouping of the emitted rows *)

Lemma parse_summary text :
  exists n emitted,
    all_rows text = Some emitted /\
    splitSqlByCategory text =
    Some (Parsed (group_into [] (omap entry_of emitted))
            (Stats n (length emitted)
               (JsMap.size (group_into [] (omap entry_of emitted))))).
Proof.
  destruct (split_loop_total collect text (length text) 0 0 [])
    as (n & emitted & Hloop); [lia|].
  exists n, emitted. unfold all_rows, splitSqlByCategory. rewrite Hloop.
  split; [reflexivity|].
  pose proof (split_loop_feed text onRow (AggState 0 []) (length text) 0 0 []) as Hfeed.
  rewrite Hloop in Hfeed. cbn [feed fold_left] in Hfeed.
  rewrite Hfeed, feed_onRow. reflexivity.
Qed.

(** * The claims *)

(** C1.  The end-to-end scenario: on
    [INSERT INTO qa (cat_id, question, description) VALUES ('3', 'What?', 'Because.');]
    the parse yields the single bucket "3" holding the single item
    {question: "What?", short: "Because.", full: "Because."}, and the
    statistics 1 statement, 1 row, 1 category. *)
Theorem C1_end_to_end :
  splitSqlByCategory c1_text =
  Some (Parsed
          [(str "3",
            [Item (VString (str "What?")) (VString (str "Because."))
               (VString (str "Because."))])]
          (Stats 1 1 1)).
Proof. vm_compute. reflexivity. Qed.

(** C2.  On
    [INSERT INTO t (category_id, question, answer) VALUES (1, 'Q1''s text', 'A1'), (2, NULL, 'A2');]
    the locator finds the three columns and the start of the values
    region, and the tokenizer emits exactly two rows there:
    {category_id: "1", question: "Q1's text", answer: "A1"} and
    {category_id: "2", question: null, answer: "A2"}.  The rows are the
    same when NULL is written in lower case. *)
Theorem C2_two_rows :
  let expected :=
    [ row_of [field "category_id" (VString (str "1"));
              field "question" (VString (str "Q1's text"));
              field "answer" (VString (str "A1"))];
      row_of [field "category_id" (VString (str "2"));
              field "question" VNull;
              field "answer" (VString (str "A2"))] ] in
  (exists group1,
      Regex.exec Regex.insertRegex c2_text 0 = Some (group1, 53%nat) /\
      parseSqlColumns group1 = c2_columns) /\
  emitted_rows c2_text 53 c2_columns = Some expected /\
  emitted_rows c2_text_lower 53 c2_columns = Some expected.
Proof.
  split; [|split].
  - eexists. split; vm_compute; reflexivity.
  - vm_compute. reflexivity.
  - vm_compute. reflexivity.
Qed.


Lemma onRow_place row st k x :
  entry_of row = Some (k, x) ->
  JsMap.get (categoryMap (onRow row st)) k =
    Some (default [] (JsMap.get (categoryMap st) k) ++ [x]) /\
  (categoryMap (onRow row st)).*1 =
    (if bool_decide (k ∈ (categoryMap st).*1) then (categoryMap st).*1
     else (categoryMap st).*1 ++ [k]) /\
  forall k', k' <> k ->
    JsMap.get (categoryMap (onRow row st)) k' = JsMap.get (categoryMap st) k'.
Proof.
  intros H. rewrite onRow_entry, H. simpl. repeat split.
  - apply JsMapFacts.add_item_get_eq.
  - apply JsMapFacts.add_item_keys.
  - intros k' Hne. apply JsMapFacts.add_item_get_ne. congruence.
Qed.





Lemma omap_length_le {A B : Type} (g : A -> option B) (l : list A) :
  (length (omap g l) <= length l)%nat.
Proof.
  induction l as [|a l IH]; csimpl; [lia|].
  destruct (g a); simpl; lia.
Qed.

Lemma split_loop_no_match {S : Type} (f : gmap jsstring value -> S -> S) text fuel n a :
  Regex.exec Regex.insertRegex text 0 = None ->
  split_loop f text fuel 0 n a = Some (n, a).
Proof. intros H. destruct fuel; simpl; now rewrite H. Qed.

(** C7.  For every input the parse returns, and with [entries] the keys
    and items of the rows the tokenizer emitted, in the order of
    emission: the keys of the category map are the keys of [entries] in
    the order of their first occurrence, without repetition, and the
    bucket of each key holds the items of that key in the order of
    emission. *)
Theorem C7_insertion_order (text : jsstring) :
  exists p emitted,
    splitSqlByCategory text = Some p /\
    all_rows text = Some emitted /\
    let entries := omap entry_of emitted in
    (parsed_map p).*1 = first_seen entries.*1 /\
    NoDup (parsed_map p).*1 /\
    forall k,
      JsMap.get (parsed_map p) k =
      if bool_decide (k ∈ entries.*1) then Some (items_for k entries) else None.
Proof.
  destruct (parse_summary text) as (n & emitted & Hrows & Hsplit).
  eexists _, emitted. split; [exact Hsplit|]. split; [exact Hrows|].
  cbn [parsed_map]. split; [apply group_keys|]. split.
  - rewrite group_keys. apply first_seen_NoDup.
  - apply group_get.
Qed.

(** C10.  For every input the parse returns and its statistics satisfy:
    [rows] is the number of rows the tokenizer emitted, the items of all
    buckets together are the emitted rows that have a bucket key, hence
    at most [rows], and [categories] is the number of keys of the map,
    which are pairwise distinct.  On [c10_text] a row is dropped and
    still counted. *)
Theorem C10_stats (text : jsstring) :
  (exists p emitted,
      splitSqlByCategory text = Some p /\
      all_rows text = Some emitted /\
      rows (parsed_stats p) = length emitted /\
      total_items (parsed_map p) = length (omap entry_of emitted) /\
      (total_items (parsed_map p) <= rows (parsed_stats p))%nat /\
      categories (parsed_stats p) = length (parsed_map p).*1 /\
      NoDup (parsed_map p).*1) /\
  (exists p,
      splitSqlByCategory c10_text = Some p /\
      rows (parsed_stats p) = 2%nat /\ total_items (parsed_map p) = 1%nat).
Proof.
  split.
  - destruct (parse_summary text) as (n & emitted & Hrows & Hsplit).
    eexists _, emitted. split; [exact Hsplit|]. split; [exact Hrows|].
    cbn [parsed_map parsed_stats rows categories].
    rewrite group_total. repeat split.
    + apply omap_length_le.
    + unfold JsMap.size. now rewrite length_fmap.
    + rewrite group_keys. apply first_seen_NoDup.
  - eexists. split; [vm_compute; reflexivity|]. split; reflexivity.
Qed.

Lemma run_literal w pat s pos cap r :
  Regex.run (map Regex.Chr w ++ pat) s pos cap = Some r -> starts_with_ci w s = true.
Proof.
  revert s pos. induction w as [|a w IH]; intros s pos; simpl; [reflexivity|].
  destruct s as [|c s]; [discriminate|].
  destruct (Regex.ci_eq c a); [|discriminate]. apply IH.
Qed.

Lemma search_literal w pat s pos :
  (forall i, starts_with_ci w (drop i s) = false) ->
  Regex.search (map Regex.Chr w ++ pat) s pos = None.
Proof.
  revert pos. induction s as [|c s IH]; intros pos Hno; cbn [Regex.search].
  - destruct (Regex.run _ _ _ _) as [r|] eqn:Hrun; [|reflexivity].
    apply run_literal in Hrun. specialize (Hno 0%nat). simpl in Hno. congruence.
  - destruct (Regex.run _ _ _ _) as [r|] eqn:Hrun.
    + apply run_literal in Hrun. specialize (Hno 0%nat). simpl in Hno. congruence.
    + apply IH. intros i. apply (Hno (S i)).
Qed.

(** Without the word INSERT the locator finds nothing. *)
Lemma exec_no_insert text :
  ~ mentions_insert text -> Regex.exec Regex.insertRegex text 0 = None.
Proof.
  intros Hno. unfold Regex.exec. simpl Nat.leb. rewrite drop_0.
  change Regex.insertRegex
    with (map Regex.Chr (list_ascii_of_string "INSERT") ++
          skipn 6 Regex.insertRegex).
  rewrite search_literal; [reflexivity|].
  intros i.
  destruct (starts_with_ci (list_ascii_of_string "INSERT") (drop i text)) eqn:H;
    [|reflexivity].
  exfalso. apply Hno. now exists i.
Qed.

(** C5.  For every text the parse returns, and the core fails exactly
    when the category map it produced is empty.  A text in which the
    locator finds no statement, in particular a text without the word
    INSERT, makes it fail with the message
    "No categories found in SQL file"; a parse with at least one bucket
    is handed on. *)
Theorem C5_zero_categories (text : jsstring) :
  exists p,
    splitSqlByCategory text = Some p /\
    (core text = Some (Failure no_categories) <-> parsed_map p = []) /\
    (Regex.exec Regex.insertRegex text 0 = None ->
     core text = Some (Failure no_categories)) /\
    (~ mentions_insert text -> core text = Some (Failure no_categories)) /\
    (parsed_map p <> [] -> core text = Some (Success p)).
Proof.
  destruct (parse_summary text) as (n & emitted & _ & Hsplit).
  eexists. split; [exact Hsplit|].
  unfold core. rewrite Hsplit. unfold check_categories, JsMap.size. cbn [parsed_map].
  set (m := group_into [] (omap entry_of emitted)) in *.
  assert (Hnone : Regex.exec Regex.insertRegex text 0 = None ->
                  Some (if (length m =? 0)%nat
                        then Failure (str "No categories found in SQL file")
                        else Success (Parsed m (Stats n (length emitted) (length m)))) =
                  Some (Failure no_categories)).
  { intros Hnone. unfold splitSqlByCategory in Hsplit.
    rewrite (split_loop_no_match onRow text _ _ _ Hnone) in Hsplit.
    injection Hsplit as Hm _ _ _. cbn [categoryMap] in Hm. now rewrite <- Hm. }
  split; [|split; [|split]].
  - destruct m as [|e m]; simpl; [tauto|]. split; discriminate.
  - exact Hnone.
  - intros Hno. apply Hnone. now apply exec_no_insert.
  - destruct m as [|e m]; simpl; [congruence|reflexivity].
Qed.

(** C5 at a text without any statement. *)
Lemma C5_zero_categories_witness :
  core (str "SELECT 1 FROM dual;") = Some (Failure no_categories).
Proof.
  destruct (C5_zero_categories (str "SELECT 1 FROM dual;")) as (p & _ & _ & H & _ & _).
  apply H. vm_compute. reflexivity.
Defined.

(** ** The row object built by the tokenizer *)

Lemma fill_row_absent key vals cols idx row :
  key ∉ cols -> fill_row idx cols vals row !! key = row !! key.
Proof.
  revert idx row. induction cols as [|c cols IH]; intros idx row Hnot; simpl.
  - reflexivity.
  - apply not_elem_of_cons in Hnot as [Hne Hnot].
    rewrite IH by exact Hnot. now apply lookup_insert_ne.
Qed.

(** The field of a column is the value at the last position where the
    column is listed, [null] when the row has no value there. *)
Lemma fill_row_last key vals cols idx row j :
  cols !! j = Some key ->
  (forall j', (j < j')%nat -> cols !! j' <> Some key) ->
  fill_row idx cols vals row !! key = Some (nullish (index vals (idx + j)) VNull).
Proof.
  revert idx row j. induction cols as [|c cols IH]; intros idx row j Hj Hlast.
  - discriminate.
  - destruct j as [|j]; simpl in *.
    + injection Hj as ->. rewrite fill_row_absent.
      * rewrite lookup_insert_eq. now rewrite Nat.add_0_r.
      * intros Hin. apply list_elem_of_lookup in Hin as [j' Hj'].
        apply (Hlast (S j')); [lia|exact Hj'].
    + rewrite (IH (S idx) _ j Hj).
      * do 3 f_equal. lia.
      * intros j' Hlt. apply (Hlast (S j')). lia.
Qed.

Lemma add_item_Forall (P : item -> Prop) m k x :
  P x ->
  Forall (fun e => Forall P e.2) m ->
  Forall (fun e => Forall P e.2) (add_item m k x).
Proof.
  intros Hx Hm. unfold add_item.
  assert (Hpush : forall m', Forall (fun e => Forall P e.2) m' ->
                             Forall (fun e => Forall P e.2) (JsMap.push m' k x)).
  { intros m'. induction m' as [|[k' v] m' IH]; simpl; intros Hall; [constructor|].
    inversion Hall as [|? ? Hv Hrest]; subst. simpl in Hv.
    case_bool_decide; constructor; simpl; auto.
    apply Forall_app. split; [exact Hv|]. now constructor. }
  apply Hpush. destruct (JsMap.has m k) eqn:Hhas; [exact Hm|].
  apply JsMapFacts.has_false in Hhas. rewrite (JsMapFacts.set_new _ _ _ Hhas).
  apply Forall_app. split; [exact Hm|]. repeat constructor.
Qed.

Lemma group_into_Forall (P : item -> Prop) entries m :
  Forall (fun e => P e.2) entries ->
  Forall (fun e => Forall P e.2) m ->
  Forall (fun e => Forall P e.2) (group_into m entries).
Proof.
  unfold group_into. revert m.
  induction entries as [|e entries IH]; intros m Hes Hm; simpl; [exact Hm|].
  inversion Hes; subst. apply IH; [assumption|]. now apply add_item_Forall.
Qed.

Lemma item_of_question_string row : exists s, question (item_of row) = VString s.
Proof.
  unfold item_of; simpl. destruct (prop row (str "question")); simpl; eauto.
Qed.

(** C9.  For the row the tokenizer builds from a column list and a list
    of values, whenever the row yields an item (it has a bucket key [k]),
    the item appended to bucket [k] has a string as question, and that
    string is empty when the column [question] is not listed, when the
    row has no value at the (last) position of the column, or when the
    value there is NULL.  After a whole parse the question of every item
    of the category map is a string, never null. *)
Theorem C9_question_not_null (columns : list jsstring) (vals : list value)
    (st : agg_state) (text : jsstring) :
  let q := str "question" in
  let row := build_row columns vals in
  (forall k,
      bucket_key row = Some k ->
      exists x,
        JsMap.get (categoryMap (onRow row st)) k =
          Some (default [] (JsMap.get (categoryMap st) k) ++ [x]) /\
        (exists s, question x = VString s) /\
        (q ∉ columns -> question x = VString []) /\
        (forall idx,
            columns !! idx = Some q ->
            (forall j, (idx < j)%nat -> columns !! j <> Some q) ->
            (length vals <= idx)%nat \/ vals !! idx = Some VNull ->
            question x = VString [])) /\
  (exists p,
      splitSqlByCategory text = Some p /\
      Forall (fun e => Forall (fun x => exists s, question x = VString s) e.2)
        (parsed_map p)).
Proof.
  intros q row. split.
  - intros k Hk. exists (item_of row).
    assert (He : entry_of row = Some (k, item_of row)).
    { unfold entry_of. now rewrite Hk. }
    destruct (onRow_place row st _ _ He) as (Hget & _ & _).
    split; [exact Hget|]. split; [apply item_of_question_string|]. split.
    + intros Hnot. unfold item_of, prop, row, build_row; simpl.
      rewrite fill_row_absent by exact Hnot. rewrite lookup_empty. reflexivity.
    + intros idx Hidx Hlast Hval. unfold item_of, prop, row, build_row; simpl.
      rewrite (fill_row_last _ _ _ _ _ idx Hidx Hlast). simpl.
      unfold index. destruct Hval as [Hlen|Hnull].
      * rewrite lookup_ge_None_2 by exact Hlen. reflexivity.
      * rewrite Hnull. reflexivity.
  - destruct (parse_summary text) as (n & emitted & _ & Hsplit).
    eexists. split; [exact Hsplit|]. cbn [parsed_map].
    apply group_into_Forall; [|constructor].
    apply Forall_forall. intros [k x] Hin. simpl.
    apply list_elem_of_omap in Hin as (r & _ & Hr).
    unfold entry_of in Hr. destruct (bucket_key r); [|discriminate].
    injection Hr as _ <-. apply item_of_question_string.
Qed.

(** C9 at the columns [cat_id, question] and the single value '3': the
    question column is beyond the row's values. *)
Lemma C9_question_not_null_witness :
  exists x,
    JsMap.get
      (categoryMap
         (onRow (build_row [str "cat_id"; str "question"] [VString (str "3")])
            (AggState 0 [])))
      (str "3") = Some [x] /\
    question x = VString [].
Proof.
  destruct (C9_question_not_null [str "cat_id"; str "question"] [VString (str "3")]
              (AggState 0 []) []) as [H _].
  destruct (H (str "3")) as (x & Hget & _ & _ & Hlast); [vm_compute; reflexivity|].
  exists x. split; [exact Hget|].
  apply (Hlast 1%nat).
  - reflexivity.
  - intros j Hj. destruct j as [|[|j]]; [lia|lia|discriminate].
  - left. simpl. lia.
Defined.

(** ** The pairwise swap of the detector *)

Lemma length_swap_spec buf : length (swap_spec buf) = length buf.
Proof.
  assert (H : forall n l, (length l <= n)%nat -> length (swap_spec l) = length l).
  { induction n as [|n IH]; intros [|a [|b l]] Hl; simpl in *; try reflexivity; try lia.
    rewrite IH by lia. reflexivity. }
  now apply (H (length buf)).
Qed.

Lemma swap_spec_app k : forall l1 l2,
  length l1 = (2 * k)%nat -> swap_spec (l1 ++ l2) = swap_spec l1 ++ swap_spec l2.
Proof.
  induction k as [|k IH]; intros l1 l2 Hlen.
  - destruct l1; [reflexivity|discriminate].
  - destruct l1 as [|a [|b l1]]; simpl in Hlen; try lia.
    simpl. rewrite IH by lia. reflexivity.
Qed.

Lemma utf16le_app k : forall l1 l2,
  length l1 = (2 * k)%nat -> utf16le (l1 ++ l2) = utf16le l1 ++ utf16le l2.
Proof.
  induction k as [|k IH]; intros l1 l2 Hlen.
  - destruct l1; [reflexivity|discriminate].
  - destruct l1 as [|a [|b l1]]; simpl in Hlen; try lia.
    simpl. rewrite IH by lia. reflexivity.
Qed.

Lemma utf16le_short l : (length l <= 1)%nat -> utf16le l = [].
Proof. destruct l as [|a [|b l]]; simpl; intros; try reflexivity; lia. Qed.

Lemma byteAt_lookup buf i x : buf !! i = Some x -> byteAt buf i = x.
Proof. unfold byteAt. now intros ->. Qed.

Section SwapFacts.

Variable uninit : nat -> Z.
Variable src : list Z.

(** After the first [k] iterations the first [k] pairs are swapped and
    the rest of the buffer is as allocated. *)
Lemma swap_loop_prefix k sw :
  length sw = length src ->
  (2 * k <= length src)%nat ->
  fold_left
    (fun swapped i =>
       <[(i + 1)%nat := byteAt src i]> (<[i := byteAt src (i + 1)]> swapped))
    (map (fun k => (2 * k)%nat) (seq 0 k)) sw =
  swap_spec (take (2 * k) src) ++ drop (2 * k) sw.
Proof.
  intros Hsw. induction k as [|k IH]; intros Hk.
  - simpl. now rewrite drop_0.
  - rewrite seq_S, map_app, fold_left_app, IH by lia. cbn [fold_left map].
    replace (2 * S k)%nat with (S (S (2 * k))) by lia.
    replace (0 + k)%nat with k by lia.
    assert (Hlen : length (swap_spec (take (2 * k) src)) = (2 * k)%nat)
      by (rewrite length_swap_spec, length_take; lia).
    assert (Heven : length (take (2 * k) src) = (2 * k)%nat)
      by (rewrite length_take; lia).
    remember (2 * k)%nat as K eqn:HK.
    destruct (lookup_lt_is_Some_2 src K) as [a Ha]; [lia|].
    destruct (lookup_lt_is_Some_2 src (S K)) as [b Hb]; [lia|].
    destruct (lookup_lt_is_Some_2 sw K) as [c Hc]; [lia|].
    destruct (lookup_lt_is_Some_2 sw (S K)) as [d Hd]; [lia|].
    replace (K + 1)%nat with (S K) by lia.
    rewrite (byteAt_lookup _ _ _ Ha), (byteAt_lookup _ _ _ Hb).
    rewrite (drop_S _ _ _ Hc), (drop_S _ _ _ Hd).
    rewrite (take_S_r _ (S K) b) by exact Hb.
    rewrite (take_S_r _ K a) by exact Ha.
    rewrite <- (app_assoc (take K src)). cbn [app].
    rewrite (swap_spec_app k) by (rewrite Heven; exact HK). cbn [swap_spec].
    rewrite insert_app_r_alt by lia.
    rewrite Hlen, Nat.sub_diag. cbn [insert list_insert].
    rewrite insert_app_r_alt by lia.
    rewrite Hlen. replace (S K - K)%nat with 1%nat by lia. cbn [insert list_insert].
    rewrite <- app_assoc. reflexivity.
Qed.

Lemma length_allocUnsafe n : length (allocUnsafe uninit n) = n.
Proof. unfold allocUnsafe. now rewrite length_map, length_seq. Qed.

Lemma odd_half n :
  (Nat.odd n = true /\ n = (2 * (n / 2) + 1)%nat) \/
  (Nat.odd n = false /\ n = (2 * (n / 2))%nat).
Proof.
  pose proof (Nat.div_mod_eq n 2) as H.
  rewrite <- Nat.bit0_mod, Nat.bit0_odd in H.
  destruct (Nat.odd n); cbn [Nat.b2n] in H; [left|right]; split; auto; lia.
Qed.

(** The buffer the loop leaves: the pairs swapped, and the slot of an
    unpaired final byte as it was allocated. *)
Lemma swap_pairs_shape :
  let n := length src in
  swap_pairs uninit src =
  swap_spec (take (2 * (n / 2)) src) ++
  (if Nat.odd n then [uninit (n - 1)%nat] else []).
Proof.
  intros n. unfold swap_pairs, pair_offsets. fold n.
  destruct (odd_half n) as [[Hodd Hn]|[Hodd Hn]]; rewrite Hodd.
  - rewrite swap_loop_prefix by (rewrite ?length_allocUnsafe; fold n; lia).
    f_equal. unfold allocUnsafe. fold n.
    remember (n / 2)%nat as m eqn:Hm.
    rewrite Hn at 1.
    rewrite seq_app, map_app, drop_app_length'
      by (rewrite length_map, length_seq; reflexivity).
    cbn [seq map]. do 2 f_equal. lia.
  - rewrite swap_loop_prefix by (rewrite ?length_allocUnsafe; fold n; lia).
    f_equal. unfold allocUnsafe. fold n.
    rewrite drop_ge; [reflexivity|]. rewrite length_map, length_seq. lia.
Qed.

(** The unwritten slot does not reach the text. *)
Lemma utf16le_swap_pairs : utf16le (swap_pairs uninit src) = utf16le (swap_spec src).
Proof.
  rewrite swap_pairs_shape. cbv zeta.
  remember (length src / 2)%nat as m eqn:Hm.
  assert (Hle : (2 * m <= length src <= 2 * m + 1)%nat).
  { destruct (odd_half (length src)) as [[_ H]|[_ H]]; rewrite <- Hm in H; lia. }
  assert (Htake : length (take (2 * m) src) = (2 * m)%nat)
    by (rewrite length_take; lia).
  rewrite (utf16le_app m) by (now rewrite length_swap_spec).
  replace (swap_spec src) with (swap_spec (take (2 * m) src ++ drop (2 * m) src))
    by (now rewrite take_drop).
  rewrite (swap_spec_app m) by exact Htake.
  rewrite (utf16le_app m) by (now rewrite length_swap_spec).
  f_equal.
  rewrite !utf16le_short; [reflexivity| |].
  - rewrite length_swap_spec, length_drop. lia.
  - destruct (Nat.odd (length src)); simpl; lia.
Qed.

End SwapFacts.

(** ** The detector, branch by branch *)

Section DetectorFacts.

Variable utf8 : list Z -> jsstring.
Variable uninit : nat -> Z.

Lemma decode_big_endian buffer :
  (2 <= length buffer)%nat -> byteAt buffer 0 = 254 -> byteAt buffer 1 = 255 ->
  decodeTextBuffer utf8 uninit buffer = utf16le (swap_pairs uninit (drop 2 buffer)).
Proof.
  intros Hlen H0 H1. unfold decodeTextBuffer. rewrite H0, H1.
  apply Nat.leb_le in Hlen. rewrite Hlen. reflexivity.
Qed.

(** Without a byte-order mark the sample decides. *)
Lemma decode_no_mark buffer :
  ((2 <=? length buffer)%nat && (byteAt buffer 0 =? 255) && (byteAt buffer 1 =? 254)) = false ->
  ((2 <=? length buffer)%nat && (byteAt buffer 0 =? 254) && (byteAt buffer 1 =? 255)) = false ->
  decodeTextBuffer utf8 uninit buffer =
  if negb (Qle_bool (oddRatio_of buffer) (3 # 10))
     || negb (Qle_bool (evenRatio_of buffer) (3 # 10))
  then if Qle_bool (evenRatio_of buffer) (oddRatio_of buffer)
       then utf16le buffer
       else utf16le (swap_pairs uninit buffer)
  else utf8 buffer.
Proof.
  intros H1 H2. unfold decodeTextBuffer, oddRatio_of, evenRatio_of.
  rewrite H1, H2.
  now destruct (count_nul buffer (Nat.min (length buffer) 1024)) as [nulEven nulOdd].
Qed.

End DetectorFacts.

Lemma utf16le_encode s : utf16le (encode_utf16le s) = s.
Proof.
  induction s as [|c s IH]; simpl; [reflexivity|].
  rewrite IH. f_equal. pose proof (Z.div_mod c 256). lia.
Qed.

(** The first two bytes of an encoding give back the first code unit. *)
Lemma encode_first_unit s b0 b1 :
  (2 <=? length (encode_utf16le s))%nat
  && (byteAt (encode_utf16le s) 0 =? b0) && (byteAt (encode_utf16le s) 1 =? b1) = true ->
  head s = Some (b0 + 256 * b1).
Proof.
  destruct s as [|c s]; simpl; [discriminate|].
  unfold byteAt; simpl. intros H.
  apply andb_prop in H as [H0 H1].
  apply Z.eqb_eq in H0, H1. f_equal. pose proof (Z.div_mod c 256). lia.
Qed.

(** C3, as stated, fails on [c3_buffer]: with an allocation that held 153,
    the buffer that is decoded ends with 153 and not with the unpaired
    byte 66 of the remainder. *)
Lemma C3_counterexample :
  swap_pairs (fun _ => 153) (drop 2 c3_buffer) = [65; 0; 153] /\
  swap_spec (drop 2 c3_buffer) = [65; 0; 66] /\
  swap_pairs (fun _ => 153) (drop 2 c3_buffer) <> swap_spec (drop 2 c3_buffer).
Proof. repeat split. vm_compute. discriminate. Qed.

(** C3, amended.  For every buffer whose first two bytes are FE FF, the
    decoder swaps every consecutive pair of the remainder and decodes the
    result as UTF-16 little-endian.  When the remainder has odd length,
    its final byte is not copied: the last slot of the decoded buffer
    keeps what the allocation held, and the decoding ignores it, so that
    the text is that of the pairwise-swapped remainder. *)
Theorem C3_big_endian_mark (utf8 : list Z -> jsstring) (uninit : nat -> Z)
    (buffer : list Z) :
  (2 <= length buffer)%nat -> byteAt buffer 0 = 254 -> byteAt buffer 1 = 255 ->
  let rest := drop 2 buffer in
  let n := length rest in
  swap_pairs uninit rest =
    swap_spec (take (2 * (n / 2)) rest) ++
    (if Nat.odd n then [uninit (n - 1)%nat] else []) /\
  decodeTextBuffer utf8 uninit buffer = utf16le (swap_pairs uninit rest) /\
  decodeTextBuffer utf8 uninit buffer = utf16le (swap_spec rest).
Proof.
  intros Hlen H0 H1 rest n. split; [apply swap_pairs_shape|].
  rewrite (decode_big_endian utf8 uninit buffer Hlen H0 H1). fold rest.
  split; [reflexivity|apply utf16le_swap_pairs].
Qed.

(** C3 at [c3_buffer]: the text is the single unit 65, whatever the
    allocation held. *)
Lemma C3_big_endian_mark_witness :
  decodeTextBuffer (fun b => b) (fun _ => 153) c3_buffer = [65].
Proof.
  destruct (C3_big_endian_mark (fun b => b) (fun _ => 153) c3_buffer) as (_ & _ & H).
  - simpl. lia.
  - reflexivity.
  - reflexivity.
  - rewrite H. reflexivity.
Defined.

(** C6, as stated, fails on [c6_string]: its encoding FF FE 61 00 ... has
    zero bytes at four of five odd offsets and at no even offset, and the
    decoder takes its first unit for a byte-order mark and drops it. *)
Lemma C6_counterexample :
  (3 # 10 < oddRatio_of (encode_utf16le c6_string))%Q /\
  (evenRatio_of (encode_utf16le c6_string) <= oddRatio_of (encode_utf16le c6_string))%Q /\
  decodeTextBuffer (fun b => b) (fun _ => 0) (encode_utf16le c6_string) = str "aaaa" /\
  decodeTextBuffer (fun b => b) (fun _ => 0) (encode_utf16le c6_string) <> c6_string.
Proof.
  split; [reflexivity|]. split; [vm_compute; discriminate|].
  split; [reflexivity|vm_compute; discriminate].
Qed.

(** C6, amended.  For every string that does not start with U+FEFF or
    U+FFFE and whose UTF-16 little-endian encoding, over its sample, has
    a ratio of zero bytes at odd offsets above 0.3 and not below the
    ratio at even offsets, decoding the encoding gives the string back. *)
Theorem C6_round_trip (utf8 : list Z -> jsstring) (uninit : nat -> Z) (s : jsstring) :
  head s <> Some 65279 -> head s <> Some 65534 ->
  (3 # 10 < oddRatio_of (encode_utf16le s))%Q ->
  (evenRatio_of (encode_utf16le s) <= oddRatio_of (encode_utf16le s))%Q ->
  decodeTextBuffer utf8 uninit (encode_utf16le s) = s.
Proof.
  intros Hle Hbe Hodd Hge.
  rewrite decode_no_mark.
  - apply Qlt_not_le in Hodd.
    destruct (Qle_bool (oddRatio_of (encode_utf16le s)) (3 # 10)) eqn:H3.
    + apply Qle_bool_iff in H3. contradiction.
    + apply Qle_bool_iff in Hge. rewrite Hge. simpl. apply utf16le_encode.
  - destruct (_ && _ && _) eqn:H; [|reflexivity].
    apply encode_first_unit in H. contradiction.
  - destruct (_ && _ && _) eqn:H; [|reflexivity].
    apply encode_first_unit in H. contradiction.
Qed.

(** C6 at the string "xaaaa". *)
Lemma C6_round_trip_witness :
  decodeTextBuffer (fun b => b) (fun _ => 0) (encode_utf16le (str "xaaaa")) = str "xaaaa".
Proof.
  apply (C6_round_trip (fun b => b) (fun _ => 0) (str "xaaaa")).
  - vm_compute. discriminate.
  - vm_compute. discriminate.
  - reflexivity.
  - vm_compute. discriminate.
Defined.

(** ** Unterminated input *)

Section Unterminated.

Context {S : Type}.
Variable text : jsstring.
Variable columns : list jsstring.
Variable f : gmap jsstring value -> S -> S.

Lemma is_char_other j a :
  charAt text j <> Some (chr a) -> is_char (charAt text j) a = false.
Proof.
  unfold is_char. destruct (charAt text j) as [c|]; [|reflexivity].
  intros H. apply Z.eqb_neq. congruence.
Qed.

(** A run that ends inside a string or inside a row ended at the end of
    the text. *)
Lemma tok_loop_open_end fuel st e st' :
  tok_loop text columns f fuel st = Some (e, st') ->
  inString st' = true \/ inRow st' = true -> e = length text.
Proof.
  revert st. induction fuel as [|fuel IH]; intros st; simpl.
  - destruct (tok_i st <? length text)%nat; [discriminate|]. now intros [= <- <-].
  - destruct (tok_i st <? length text)%nat; [|now intros [= <- <-]].
    destruct (tok_step text columns f st) as [st1|e1 st1] eqn:Hstep.
    + apply IH.
    + intros [= <- <-]. apply tok_step_return in Hstep as (-> & _ & Hs & Hr & _).
      rewrite Hs, Hr. intros [?|?]; discriminate.
Qed.

(** Inside a string that is not closed before the end of the text no row
    is emitted any more. *)
Lemma tok_loop_open_string fuel st :
  inString st = true ->
  (forall j, (tok_i st <= j)%nat -> charAt text j <> Some (chr "'")) ->
  (length text - tok_i st <= fuel)%nat ->
  exists st',
    tok_loop text columns f fuel st = Some (length text, st') /\
    tok_acc st' = tok_acc st.
Proof.
  revert st. induction fuel as [|fuel IH]; intros st Hs Hq Hfuel; simpl.
  - destruct (tok_i st <? length text)%nat eqn:Hlt; [|eauto].
    apply Nat.ltb_lt in Hlt. lia.
  - destruct (tok_i st <? length text)%nat eqn:Hlt; [|eauto].
    unfold tok_step. rewrite Hs, (is_char_other _ _ (Hq _ (Nat.le_refl _))). simpl.
    destruct (IH (TokState (tok_i st + 1) true (inRow st)
                    (append_char (current st) (charAt text (tok_i st)))
                    (values st) (tok_acc st))) as (st' & Hloop & Hacc).
    + reflexivity.
    + intros j Hj. apply Hq. simpl in Hj. lia.
    + simpl. lia.
    + exists st'. split; assumption.
Qed.

(** Inside a row that meets neither a quote nor a closing parenthesis
    before the end of the text no row is emitted any more. *)
Lemma tok_loop_open_row fuel st :
  inString st = false -> inRow st = true ->
  (forall j, (tok_i st <= j)%nat ->
             charAt text j <> Some (chr "'") /\ charAt text j <> Some (chr ")")) ->
  (length text - tok_i st <= fuel)%nat ->
  exists st',
    tok_loop text columns f fuel st = Some (length text, st') /\
    tok_acc st' = tok_acc st.
Proof.
  revert st. induction fuel as [|fuel IH]; intros st Hs Hr Hq Hfuel; simpl.
  - destruct (tok_i st <? length text)%nat eqn:Hlt; [|eauto].
    apply Nat.ltb_lt in Hlt. lia.
  - destruct (tok_i st <? length text)%nat eqn:Hlt; [|eauto].
    destruct (Hq _ (Nat.le_refl _)) as [Hquote Hclose].
    assert (Hnext : forall st1,
               tok_i st1 = (tok_i st + 1)%nat -> inString st1 = false ->
               inRow st1 = true -> tok_acc st1 = tok_acc st ->
               exists st',
                 tok_loop text columns f fuel st1 = Some (length text, st') /\
                 tok_acc st' = tok_acc st).
    { intros st1 Hi Hs1 Hr1 Hacc. rewrite <- Hacc. apply IH; auto.
      - intros j Hj. apply Hq. lia.
      - lia. }
    unfold tok_step.
    rewrite Hs, Hr, (is_char_other _ _ Hquote), (is_char_other _ _ Hclose). simpl.
    rewrite andb_true_r, andb_false_r.
    destruct (is_char (charAt text (tok_i st)) "("); [now apply Hnext|].
    destruct (is_char (charAt text (tok_i st)) ","); now apply Hnext.
Qed.

End Unterminated.

(** C8.  The detector returns a text for every buffer: one of the two
    UTF-16 decodings of the remainder after a byte-order mark, one of the
    two UTF-16 decodings of the whole buffer, or else its UTF-8 decoding.
    The tokenizer returns for every text, start offset, column list and
    callback, with an end offset within the text, and that offset is the
    length of the text whenever the scan ends inside a string or inside a
    row.  From a state inside a string that is never closed, or inside a
    row that is never closed, the scan emits no further row and returns
    the length of the text. *)
Theorem C8_total_functions :
  (forall (utf8 : list Z -> jsstring) (uninit : nat -> Z) (buffer : list Z),
      let t := decodeTextBuffer utf8 uninit buffer in
      t = utf16le (drop 2 buffer) \/
      t = utf16le (swap_pairs uninit (drop 2 buffer)) \/
      t = utf16le buffer \/
      t = utf16le (swap_pairs uninit buffer) \/
      t = utf8 buffer) /\
  (forall (S : Type) (f : gmap jsstring value -> S -> S) (text : jsstring)
          (columns : list jsstring) (start : nat) (a : S),
      exists e st,
        tok_run text columns f start a = Some (e, st) /\
        parseValuesSection text columns f start a = Some (e, tok_acc st) /\
        (e <= length text)%nat /\
        (inString st = true \/ inRow st = true -> e = length text)) /\
  (forall (S : Type) (f : gmap jsstring value -> S -> S) (text : jsstring)
          (columns : list jsstring) (fuel : nat) (st : tok_state S),
      (length text - tok_i st <= fuel)%nat ->
      (inString st = true /\
       forall j, (tok_i st <= j)%nat -> charAt text j <> Some (chr "'")) \/
      (inString st = false /\ inRow st = true /\
       forall j, (tok_i st <= j)%nat ->
                 charAt text j <> Some (chr "'") /\ charAt text j <> Some (chr ")")) ->
      exists st',
        tok_loop text columns f fuel st = Some (length text, st') /\
        tok_acc st' = tok_acc st).
Proof.
  split; [|split].
  - intros utf8 uninit buffer. unfold decodeTextBuffer.
    destruct (_ && _ && _); [now left|].
    destruct (_ && _ && _); [now right; left|].
    destruct (count_nul buffer _) as [nulEven nulOdd].
    destruct (_ || _); [|now repeat right].
    destruct (Qle_bool _ _); [now right; right; left|now right; right; right; left].
  - intros S f text columns start a. unfold parseValuesSection, tok_run.
    destruct (tok_loop_total text columns f (length text - start) (tok_init start a))
      as (e & st & Hloop); [simpl; lia|].
    exists e, st. rewrite Hloop. split; [reflexivity|]. split; [reflexivity|].
    split; [apply (tok_loop_bounds _ _ _ _ _ _ _ Hloop)|].
    apply (tok_loop_open_end _ _ _ _ _ _ _ Hloop).
  - intros S f text columns fuel st Hfuel [[Hs Hq]|(Hs & Hr & Hq)].
    + now apply tok_loop_open_string.
    + now apply tok_loop_open_row.
Qed.

(** C8 at [c8_text], from the state reached at offset 15, inside the
    string that is never closed: the scan returns the length of the text
    and the rows stay the one row emitted before. *)
Lemma C8_total_functions_witness :
  exists st',
    tok_loop c8_text [] collect 22
      (TokState 15 true true [] [VString (str "2")] [row_of []]) =
      Some (37%nat, st') /\
    tok_acc st' = [row_of []].
Proof.
  destruct C8_total_functions as (_ & _ & H).
  apply (H _ collect c8_text [] 22%nat
           (TokState 15 true true [] [VString (str "2")] [row_of []])).
  - simpl. lia.
  - left. split; [reflexivity|].
    intros j Hj. simpl in Hj. unfold charAt.
    do 15 (destruct j as [|j]; [lia|]).
    do 22 (destruct j as [|j]; [vm_compute; discriminate|]).
    vm_compute. discriminate.
Defined.

(** * Further properties of the code *)

(** ** The detector on the encodings it is written for *)

Lemma swap_spec_encode_be s : swap_spec (encode_utf16be s) = encode_utf16le s.
Proof. induction s as [|c s IH]; simpl; [reflexivity|]. now rewrite IH. Qed.

Lemma encode_be_first_unit s b0 b1 :
  (2 <=? length (encode_utf16be s))%nat
  && (byteAt (encode_utf16be s) 0 =? b0) && (byteAt (encode_utf16be s) 1 =? b1) = true ->
  head s = Some (256 * b0 + b1).
Proof.
  destruct s as [|c s]; simpl; [discriminate|].
  unfold byteAt; simpl. intros H.
  apply andb_prop in H as [H0 H1].
  apply Z.eqb_eq in H0, H1. f_equal. pose proof (Z.div_mod c 256). lia.
Qed.

Lemma count_nul_none buffer n :
  (forall i, (i < n)%nat -> buffer !! i <> Some 0) -> count_nul buffer n = (O, O).
Proof.
  unfold count_nul. intros Hno.
  assert (H : forall l acc, (forall i, i ∈ l -> (i < n)%nat) ->
            fold_left
              (fun '(nulEven, nulOdd) i =>
                 if bool_decide (buffer !! i = Some 0) then
                   if (i mod 2 =? 0)%nat then (S nulEven, nulOdd) else (nulEven, S nulOdd)
                 else (nulEven, nulOdd)) l acc = acc).
  { induction l as [|i l IH]; intros [a b] Hl; simpl; [reflexivity|].
    rewrite bool_decide_eq_false_2 by (apply Hno, Hl; now left).
    apply IH. intros j Hj. apply Hl. now right. }
  apply H. intros i Hi. apply elem_of_seq in Hi. lia.
Qed.

Lemma ratio_zero slots : Qle_bool (ratio 0 slots) (3 # 10) = true.
Proof.
  unfold ratio. destruct slots as [|n]; [reflexivity|].
  apply Qle_bool_iff. unfold Qle. simpl. lia.
Qed.

(** X1.  A buffer that starts with the little-endian mark FF FE decodes
    as the UTF-16 little-endian text of the bytes after the mark; hence
    the marked little-endian encoding of any string, also of one that
    itself starts with U+FEFF, decodes to that string. *)
Theorem X1_marked_little_endian (utf8 : list Z -> jsstring) (uninit : nat -> Z) :
  (forall rest, decodeTextBuffer utf8 uninit (255 :: 254 :: rest) = utf16le rest) /\
  (forall s, decodeTextBuffer utf8 uninit (255 :: 254 :: encode_utf16le s) = s).
Proof.
  assert (H : forall rest, decodeTextBuffer utf8 uninit (255 :: 254 :: rest) = utf16le rest)
    by reflexivity.
  split; [exact H|]. intros s. rewrite H. apply utf16le_encode.
Qed.

(** X2.  The marked big-endian encoding of any string (FE FF, then each
    code unit high byte first) decodes to that string, whatever the fresh
    allocation of the swap buffer held. *)
Theorem X2_marked_big_endian (utf8 : list Z -> jsstring) (uninit : nat -> Z)
    (s : jsstring) :
  decodeTextBuffer utf8 uninit (254 :: 255 :: encode_utf16be s) = s.
Proof.
  rewrite decode_big_endian; [|simpl; lia|reflexivity|reflexivity].
  change (drop 2 (254 :: 255 :: encode_utf16be s)) with (encode_utf16be s).
  rewrite utf16le_swap_pairs, swap_spec_encode_be.
  apply utf16le_encode.
Qed.

(** X3.  Without a mark, the big-endian encoding of a string that does
    not start with U+FEFF or U+FFFE decodes to that string whenever, over
    the sample, the ratio of zero bytes at even offsets exceeds 0.3 and
    the ratio at odd offsets is below it. *)
Theorem X3_unmarked_big_endian (utf8 : list Z -> jsstring) (uninit : nat -> Z)
    (s : jsstring) :
  head s <> Some 65279 -> head s <> Some 65534 ->
  (3 # 10 < evenRatio_of (encode_utf16be s))%Q ->
  (oddRatio_of (encode_utf16be s) < evenRatio_of (encode_utf16be s))%Q ->
  decodeTextBuffer utf8 uninit (encode_utf16be s) = s.
Proof.
  intros Hbe Hle Heven Hlt.
  rewrite decode_no_mark.
  - apply Qlt_not_le in Heven, Hlt.
    destruct (Qle_bool (evenRatio_of (encode_utf16be s)) (3 # 10)) eqn:H3.
    { apply Qle_bool_iff in H3. contradiction. }
    destruct (Qle_bool (evenRatio_of (encode_utf16be s))
                (oddRatio_of (encode_utf16be s))) eqn:H4.
    { apply Qle_bool_iff in H4. contradiction. }
    rewrite orb_true_r.
    rewrite utf16le_swap_pairs, swap_spec_encode_be. apply utf16le_encode.
  - destruct (_ && _ && _) eqn:H; [|reflexivity].
    apply encode_be_first_unit in H. contradiction.
  - destruct (_ && _ && _) eqn:H; [|reflexivity].
    apply encode_be_first_unit in H. contradiction.
Qed.

(** X3 at the string "xaaaa". *)
Lemma X3_unmarked_big_endian_witness :
  decodeTextBuffer (fun b => b) (fun _ => 0) (encode_utf16be (str "xaaaa")) = str "xaaaa".
Proof.
  apply (X3_unmarked_big_endian (fun b => b) (fun _ => 0) (str "xaaaa")).
  - vm_compute. discriminate.
  - vm_compute. discriminate.
  - reflexivity.
  - reflexivity.
Defined.

(** X4.  A buffer without a mark and without a zero byte among its first
    1024 bytes is decoded as UTF-8; in particular the empty buffer and
    every buffer of ASCII text are. *)
Theorem X4_no_zero_is_utf8 (utf8 : list Z -> jsstring) (uninit : nat -> Z)
    (buffer : list Z) :
  (forall i, (i < 1024)%nat -> buffer !! i <> Some 0) ->
  ~ (byteAt buffer 0 = 255 /\ byteAt buffer 1 = 254) ->
  ~ (byteAt buffer 0 = 254 /\ byteAt buffer 1 = 255) ->
  decodeTextBuffer utf8 uninit buffer = utf8 buffer.
Proof.
  intros Hno Hle Hbe.
  rewrite decode_no_mark.
  - unfold oddRatio_of, evenRatio_of.
    rewrite count_nul_none by (intros i Hi; apply Hno; lia).
    cbn [fst snd]. now rewrite !ratio_zero.
  - destruct (_ && _ && _) eqn:H; [|reflexivity].
    apply andb_prop in H as [H H1]. apply andb_prop in H as [_ H0].
    apply Z.eqb_eq in H0, H1. tauto.
  - destruct (_ && _ && _) eqn:H; [|reflexivity].
    apply andb_prop in H as [H H1]. apply andb_prop in H as [_ H0].
    apply Z.eqb_eq in H0, H1. tauto.
Qed.

(** X4 at the bytes of "SELECT 1;". *)
Lemma X4_no_zero_is_utf8_witness :
  decodeTextBuffer (fun b => b) (fun _ => 0) (str "SELECT 1;") = str "SELECT 1;".
Proof.
  apply (X4_no_zero_is_utf8 (fun b => b) (fun _ => 0) (str "SELECT 1;")).
  - intros i _. do 9 (destruct i as [|i]; [vm_compute; discriminate|]).
    vm_compute. discriminate.
  - vm_compute. intros [H _]. discriminate.
  - vm_compute. intros [H _]. discriminate.
Defined.

(** ** The tokenizer on well-formed rows *)

Section Scan.

Context {S : Type}.
Variable text : jsstring.
Variable columns : list jsstring.
Variable f : gmap jsstring value -> S -> S.

Local Abbreviation result_of := (tok_result text columns f).

Lemma tok_loop_more_fuel fuel fuel' st r :
  tok_loop text columns f fuel st = Some r -> (fuel <= fuel')%nat ->
  tok_loop text columns f fuel' st = Some r.
Proof.
  revert fuel' st. induction fuel as [|fuel IH]; intros fuel' st; simpl.
  - destruct (tok_i st <? length text)%nat eqn:Hlt; [discriminate|].
    intros H _. destruct fuel'; simpl; now rewrite Hlt.
  - destruct (tok_i st <? length text)%nat eqn:Hlt.
    + destruct fuel' as [|fuel']; [lia|]. simpl. rewrite Hlt.
      destruct (tok_step text columns f st); [|auto].
      intros H Hle. apply IH; [exact H|lia].
    + intros H _. destruct fuel'; simpl; now rewrite Hlt.
Qed.

Lemma tok_result_unique st r r' : result_of st r -> result_of st r' -> r = r'.
Proof.
  intros [n Hn] [n' Hn'].
  apply (tok_loop_more_fuel _ (Nat.max n n')) in Hn; [|lia].
  apply (tok_loop_more_fuel _ (Nat.max n n')) in Hn'; [|lia].
  congruence.
Qed.

Lemma tok_result_step st st' r :
  (tok_i st < length text)%nat ->
  tok_step text columns f st = Continue st' ->
  result_of st' r -> result_of st r.
Proof.
  intros Hlt Hstep [fuel Hloop]. exists (Datatypes.S fuel). simpl.
  apply Nat.ltb_lt in Hlt. now rewrite Hlt, Hstep.
Qed.

Lemma tok_result_return st e st' :
  (tok_i st < length text)%nat ->
  tok_step text columns f st = Return e st' ->
  result_of st (e, st').
Proof.
  intros Hlt Hstep. exists 1%nat. simpl.
  apply Nat.ltb_lt in Hlt. now rewrite Hlt, Hstep.
Qed.

Lemma tok_result_run start a r :
  result_of (tok_init start a) r -> tok_run text columns f start a = Some r.
Proof.
  intros Hr. unfold tok_run.
  destruct (tok_loop_total text columns f (length text - start) (tok_init start a))
    as (e & st' & Hloop); [simpl; lia|].
  rewrite Hloop. f_equal. apply (tok_result_unique (tok_init start a)); [|exact Hr].
  now exists (length text - start)%nat.
Qed.

End Scan.

Section ScanRows.

Context {S : Type}.
Variable text : jsstring.
Variable columns : list jsstring.
Variable f : gmap jsstring value -> S -> S.

Local Abbreviation result_of := (tok_result text columns f).

Lemma charAt_here pre c post i :
  text = pre ++ c :: post -> i = length pre -> charAt text i = Some c.
Proof. intros -> ->. apply list_lookup_middle. reflexivity. Qed.

Lemma charAt_after pre c post i :
  text = pre ++ c :: post -> i = length pre -> charAt text (i + 1) = head post.
Proof.
  intros -> ->. unfold charAt, codeunit. rewrite lookup_app_r; [|lia].
  replace (length pre + 1 - length pre)%nat with 1%nat by lia.
  now destruct post.
Qed.

Lemma inside_text pre c post i :
  text = pre ++ c :: post -> i = length pre -> (i < length text)%nat.
Proof. intros -> ->. rewrite length_app. simpl. lia. Qed.

Lemma bare_char_spec c :
  bare_char c = true ->
  (c =? chr "'") = false /\ (c =? chr "(") = false /\
  (c =? chr ")") = false /\ (c =? chr ",") = false.
Proof.
  unfold bare_char. rewrite negb_true_iff, !orb_false_iff. tauto.
Qed.

Lemma gap_char_spec c :
  gap_char c = true ->
  (c =? chr "'") = false /\ (c =? chr "(") = false /\ (c =? chr ";") = false.
Proof.
  unfold gap_char. rewrite negb_true_iff, !orb_false_iff. tauto.
Qed.

(** Plain text inside a row is appended to the field. *)
Lemma scan_bare seg : forall pre post i cur vals acc r,
  text = pre ++ seg ++ post -> i = length pre ->
  forallb bare_char seg = true ->
  result_of (TokState (i + length seg) false true (cur ++ seg) vals acc) r ->
  result_of (TokState i false true cur vals acc) r.
Proof.
  induction seg as [|c seg IH]; intros pre post i cur vals acc r Htext Hi Hbare Hr.
  - simpl in Hr. now rewrite Nat.add_0_r, app_nil_r in Hr.
  - simpl in Htext, Hbare. apply andb_prop in Hbare as [Hc Hseg].
    apply bare_char_spec in Hc as (H1 & H2 & H3 & H4).
    apply (tok_result_step _ _ _ _ (TokState (i + 1) false true (cur ++ [c]) vals acc)).
    + apply (inside_text _ _ _ _ Htext Hi).
    + unfold tok_step; simpl. rewrite (charAt_here _ _ _ _ Htext Hi). simpl.
      rewrite H1, H2, H3, H4. simpl. now rewrite andb_false_r.
    + apply (IH (pre ++ [c]) post); [now rewrite <- app_assoc|rewrite length_app; simpl; lia
                                     |exact Hseg|].
      rewrite <- app_assoc. simpl.
      replace (i + 1 + length seg)%nat with (i + length (c :: seg))%nat by (simpl; lia).
      exact Hr.
Qed.

(** Plain text between rows is appended as well, and dropped by the next
    opening parenthesis. *)
Lemma scan_gap seg : forall pre post i cur vals acc r,
  text = pre ++ seg ++ post -> i = length pre ->
  forallb gap_char seg = true ->
  result_of (TokState (i + length seg) false false (cur ++ seg) vals acc) r ->
  result_of (TokState i false false cur vals acc) r.
Proof.
  induction seg as [|c seg IH]; intros pre post i cur vals acc r Htext Hi Hgap Hr.
  - simpl in Hr. now rewrite Nat.add_0_r, app_nil_r in Hr.
  - simpl in Htext, Hgap. apply andb_prop in Hgap as [Hc Hseg].
    apply gap_char_spec in Hc as (H1 & H2 & H3).
    apply (tok_result_step _ _ _ _ (TokState (i + 1) false false (cur ++ [c]) vals acc)).
    + apply (inside_text _ _ _ _ Htext Hi).
    + unfold tok_step; simpl. rewrite (charAt_here _ _ _ _ Htext Hi). simpl.
      now rewrite H1, H2, H3, !andb_false_r.
    + apply (IH (pre ++ [c]) post); [now rewrite <- app_assoc|rewrite length_app; simpl; lia
                                     |exact Hseg|].
      rewrite <- app_assoc. simpl.
      replace (i + 1 + length seg)%nat with (i + length (c :: seg))%nat by (simpl; lia).
      exact Hr.
Qed.

(** Inside a string literal the body is appended, a doubled quote as one
    quote, up to the closing quote. *)
Lemma scan_body body : forall pre post i inrow cur vals acc r,
  text = pre ++ escape body ++ chr "'" :: post -> i = length pre ->
  head post <> Some (chr "'") ->
  result_of (TokState (i + length (escape body) + 1) false inrow (cur ++ body) vals acc) r ->
  result_of (TokState i true inrow cur vals acc) r.
Proof.
  induction body as [|c body IH]; intros pre post i inrow cur vals acc r Htext Hi Hpost Hr.
  - simpl in Htext, Hr. rewrite app_nil_r, Nat.add_0_r in Hr.
    apply (tok_result_step _ _ _ _ (TokState (i + 1) false inrow cur vals acc));
      [apply (inside_text _ _ _ _ Htext Hi)| |exact Hr].
    unfold tok_step; simpl.
    rewrite (charAt_here _ _ _ _ Htext Hi), (charAt_after _ _ _ _ Htext Hi). simpl.
    destruct post as [|d post]; simpl; [reflexivity|].
    destruct (Z.eqb_spec d (chr "'")) as [->|Hd]; [now destruct Hpost|reflexivity].
  - unfold escape in Htext, Hr. simpl in Htext, Hr. fold (escape body) in Htext, Hr.
    destruct (Z.eqb_spec c (chr "'")) as [->|Hc].
    + simpl in Htext, Hr.
      apply (tok_result_step _ _ _ _
               (TokState (i + 2) true inrow (cur ++ str "'") vals acc)).
      * apply (inside_text _ _ _ _ Htext Hi).
      * unfold tok_step; simpl.
        rewrite (charAt_here _ _ _ _ Htext Hi), (charAt_after _ _ _ _ Htext Hi).
        reflexivity.
      * apply (IH (pre ++ [chr "'"; chr "'"]) post);
          [now rewrite <- app_assoc|rewrite length_app; simpl; lia|exact Hpost|].
        change (str "'") with [chr "'"]. rewrite <- app_assoc. simpl.
        replace (i + 2 + length (escape body) + 1)%nat
          with (i + Datatypes.S (Datatypes.S (length (escape body))) + 1)%nat by lia.
        exact Hr.
    + simpl in Htext, Hr.
      apply (tok_result_step _ _ _ _ (TokState (i + 1) true inrow (cur ++ [c]) vals acc)).
      * apply (inside_text _ _ _ _ Htext Hi).
      * unfold tok_step; simpl. rewrite (charAt_here _ _ _ _ Htext Hi). simpl.
        apply Z.eqb_neq in Hc. now rewrite Hc.
      * apply (IH (pre ++ [c]) post);
          [now rewrite <- app_assoc|rewrite length_app; simpl; lia|exact Hpost|].
        rewrite <- app_assoc. simpl.
        replace (i + 1 + length (escape body) + 1)%nat
          with (i + Datatypes.S (length (escape body)) + 1)%nat by lia.
        exact Hr.
Qed.

End ScanRows.

Section ScanFields.

Context {S : Type}.
Variable text : jsstring.
Variable columns : list jsstring.
Variable f : gmap jsstring value -> S -> S.

Local Abbreviation result_of := (tok_result text columns f).

(** A field is scanned to its content. *)
Lemma scan_field fd pre post i cur vals acc r :
  text = pre ++ field_text fd ++ post -> i = length pre ->
  field_ok fd = true -> head post <> Some (chr "'") ->
  result_of (TokState (i + length (field_text fd)) false true
               (cur ++ field_content fd) vals acc) r ->
  result_of (TokState i false true cur vals acc) r.
Proof.
  destruct fd as [ld lit]. unfold field_text, field_content, field_ok. simpl.
  intros Htext Hi Hok Hpost Hr. apply andb_prop in Hok as [Hlead Htrail].
  rewrite <- app_assoc in Htext.
  apply (scan_bare text columns f ld pre _ i cur vals acc r Htext Hi Hlead).
  destruct lit as [[body trail]|].
  - unfold quote_sql in *. simpl in Htext, Hr.
    rewrite <- !app_assoc in Htext. simpl in Htext.
    assert (Hopen : text = (pre ++ ld) ++ chr "'" :: escape body ++ chr "'" :: trail ++ post)
      by (now rewrite <- app_assoc).
    assert (Hi' : (i + length ld)%nat = length (pre ++ ld))
      by (rewrite length_app; lia).
    apply (tok_result_step _ _ _ _
             (TokState (i + length ld + 1) true true (cur ++ ld) vals acc)).
    + apply (inside_text _ _ _ _ _ Hopen Hi').
    + unfold tok_step; simpl. now rewrite (charAt_here _ _ _ _ _ Hopen Hi').
    + apply (scan_body text columns f body (pre ++ ld ++ [chr "'"]) (trail ++ post)).
      * rewrite Htext. now rewrite <- !app_assoc.
      * rewrite !length_app. simpl. lia.
      * destruct trail as [|t trail]; [exact Hpost|]. simpl in Htrail |- *.
        apply andb_prop in Htrail as [Ht _].
        apply bare_char_spec in Ht as (Ht & _). apply Z.eqb_neq in Ht. congruence.
      * apply (scan_bare text columns f trail
                 (pre ++ ld ++ chr "'" :: escape body ++ [chr "'"]) post).
        -- rewrite Htext. rewrite <- !app_assoc. simpl. now rewrite <- !app_assoc.
        -- rewrite !length_app. simpl. rewrite length_app. simpl. lia.
        -- exact Htrail.
        -- rewrite !length_app in Hr. simpl in Hr. rewrite !length_app in Hr.
           simpl in Hr. rewrite !app_assoc in Hr. rewrite <- !app_assoc.
           rewrite !app_assoc.
           replace (i + length ld + 1 + length (escape body) + 1 + length trail)%nat
             with (i + (length ld + Datatypes.S (length (escape body) + 1 + length trail)))%nat
             by lia.
           exact Hr.
  - rewrite !app_nil_r in Hr. exact Hr.
Qed.

(** The fields of a row up to its closing parenthesis: the values are
    pushed and the row is handed to the callback. *)
Lemma scan_fields fds : forall pre post i vals acc r,
  fds <> [] ->
  text = pre ++ fields_text fds ++ chr ")" :: post -> i = length pre ->
  forallb field_ok fds = true ->
  result_of (TokState (i + length (fields_text fds) + 1) false false []
               (vals ++ row_values fds)
               (f (build_row columns (vals ++ row_values fds)) acc)) r ->
  result_of (TokState i false true [] vals acc) r.
Proof.
  induction fds as [|fd rest IH]; intros pre post i vals acc r Hne Htext Hi Hok Hr;
    [congruence|].
  simpl in Hok. apply andb_prop in Hok as [Hfd Hrest].
  destruct rest as [|fd2 rest].
  - simpl in Htext, Hr.
    apply (scan_field fd pre (chr ")" :: post) i [] vals acc r Htext Hi Hfd);
      [simpl; vm_compute; discriminate|].
    assert (Hclose : text = (pre ++ field_text fd) ++ chr ")" :: post)
      by (now rewrite <- app_assoc).
    assert (Hi' : (i + length (field_text fd))%nat = length (pre ++ field_text fd))
      by (rewrite length_app; lia).
    eapply tok_result_step; [apply (inside_text _ _ _ _ _ Hclose Hi')| |exact Hr].
    unfold tok_step; simpl. rewrite (charAt_here _ _ _ _ _ Hclose Hi'). reflexivity.
  - change (fields_text (fd :: fd2 :: rest))
      with (field_text fd ++ chr "," :: fields_text (fd2 :: rest)) in *.
    change (row_values (fd :: fd2 :: rest))
      with (decodeSqlValue (trim (field_content fd)) :: row_values (fd2 :: rest)) in Hr.
    rewrite <- app_assoc in Htext. simpl in Htext.
    apply (scan_field fd pre (chr "," :: fields_text (fd2 :: rest) ++ chr ")" :: post)
             i [] vals acc r Htext Hi Hfd);
      [simpl; vm_compute; discriminate|].
    assert (Hcomma : text = (pre ++ field_text fd) ++
                            chr "," :: fields_text (fd2 :: rest) ++ chr ")" :: post)
      by (now rewrite <- app_assoc).
    assert (Hi' : (i + length (field_text fd))%nat = length (pre ++ field_text fd))
      by (rewrite length_app; lia).
    apply (tok_result_step _ _ _ _
             (TokState (i + length (field_text fd) + 1) false true []
                (vals ++ [decodeSqlValue (trim (field_content fd))]) acc)).
    + apply (inside_text _ _ _ _ _ Hcomma Hi').
    + unfold tok_step; simpl. rewrite (charAt_here _ _ _ _ _ Hcomma Hi'). reflexivity.
    + apply (IH (pre ++ field_text fd ++ [chr ","]) post); [discriminate| | |exact Hrest|].
      * rewrite Htext. now rewrite <- !app_assoc.
      * rewrite !length_app. simpl. lia.
      * rewrite <- !app_assoc. cbn [app].
        rewrite length_app in Hr. cbn [length] in Hr.
        replace (i + length (field_text fd) + 1 + length (fields_text (fd2 :: rest)) + 1)%nat
          with (i + (length (field_text fd) +
                     Datatypes.S (length (fields_text (fd2 :: rest)))) + 1)%nat by lia.
        exact Hr.
Qed.

(** Rows with their gaps: each row is handed to the callback, in order. *)
Lemma scan_rows rws : forall pre post i cur vals acc,
  text = pre ++ rows_text rws ++ post -> i = length pre ->
  forallb row_ok rws = true ->
  exists cur' vals',
    forall r,
      result_of (TokState (i + length (rows_text rws)) false false cur' vals'
                   (feed f (map (fun rw => build_row columns (row_values rw.2)) rws) acc)) r ->
      result_of (TokState i false false cur vals acc) r.
Proof.
  induction rws as [|[gap fds] rws IH]; intros pre post i cur vals acc Htext Hi Hok.
  - exists cur, vals. intros r. simpl. now rewrite Nat.add_0_r.
  - simpl in Hok. apply andb_prop in Hok as [Hrow Hrws].
    unfold row_ok in Hrow. simpl in Hrow.
    apply andb_prop in Hrow as [Hrow Hne]. apply andb_prop in Hrow as [Hgap Hfds].
    apply negb_true_iff, bool_decide_eq_false in Hne.
    unfold rows_text in Htext. simpl in Htext. fold (rows_text rws) in Htext.
    unfold row_text in Htext. rewrite <- !app_assoc in Htext. simpl in Htext.
    rewrite <- !app_assoc in Htext. simpl in Htext.
    destruct (IH (pre ++ gap ++ chr "(" :: fields_text fds ++ [chr ")"]) post
                (i + length gap + 1 + length (fields_text fds) + 1)%nat []
                (row_values fds) (f (build_row columns (row_values fds)) acc))
      as (cur' & vals' & Hnext).
    { rewrite Htext. rewrite <- !app_assoc. simpl. now rewrite <- !app_assoc. }
    { rewrite !length_app. simpl. rewrite length_app. simpl. lia. }
    { exact Hrws. }
    exists cur', vals'. intros r Hr.
    apply (scan_gap text columns f gap pre _ i cur vals acc r Htext Hi Hgap).
    assert (Hopen : text = (pre ++ gap) ++
                           chr "(" :: fields_text fds ++ chr ")" :: rows_text rws ++ post)
      by (now rewrite <- app_assoc).
    assert (Hi' : (i + length gap)%nat = length (pre ++ gap))
      by (rewrite length_app; lia).
    apply (tok_result_step _ _ _ _
             (TokState (i + length gap + 1) false true [] [] acc)).
    + apply (inside_text _ _ _ _ _ Hopen Hi').
    + unfold tok_step; simpl. rewrite (charAt_here _ _ _ _ _ Hopen Hi'). reflexivity.
    + apply (scan_fields fds (pre ++ gap ++ [chr "("]) (rows_text rws ++ post)
               _ [] acc r Hne).
      * rewrite Htext. now rewrite <- !app_assoc.
      * rewrite !length_app. simpl. lia.
      * exact Hfds.
      * simpl. apply Hnext.
        unfold rows_text in Hr. simpl in Hr. fold (rows_text rws) in Hr.
        unfold row_text in Hr. rewrite !length_app in Hr. simpl in Hr.
        rewrite !length_app in Hr. simpl in Hr.
        replace (i + length gap + 1 + length (fields_text fds) + 1 + length (rows_text rws))%nat
          with (i + (length gap + Datatypes.S (length (fields_text fds) + 1) +
                     length (rows_text rws)))%nat by lia.
        exact Hr.
Qed.

(** After the rows, a gap and the semicolon end the statement. *)
Lemma scan_end (gap pre post : jsstring) i cur vals acc :
  text = pre ++ gap ++ chr ";" :: post -> i = length pre ->
  forallb gap_char gap = true ->
  exists st',
    result_of (TokState i false false cur vals acc) ((i + length gap + 1)%nat, st') /\
    tok_acc st' = acc.
Proof.
  intros Htext Hi Hgap.
  exists (TokState (i + length gap) false false (cur ++ gap) vals acc).
  split; [|reflexivity].
  apply (scan_gap text columns f gap pre _ i cur vals acc _ Htext Hi Hgap).
  assert (Hsemi : text = (pre ++ gap) ++ chr ";" :: post) by (now rewrite <- app_assoc).
  assert (Hi' : (i + length gap)%nat = length (pre ++ gap))
    by (rewrite length_app; lia).
  apply tok_result_return; [apply (inside_text _ _ _ _ _ Hsemi Hi')|].
  unfold tok_step; simpl. rewrite (charAt_here _ _ _ _ _ Hsemi Hi'). reflexivity.
Qed.

End ScanFields.

(** Rows as written are tokenized into those rows. *)
Lemma tokenize_rows {S : Type} (f : gmap jsstring value -> S -> S)
    (columns : list jsstring) (pre : jsstring) (rws : list row_src)
    (gap post : jsstring) (a : S) :
  forallb row_ok rws = true -> forallb gap_char gap = true ->
  parseValuesSection (pre ++ rows_text rws ++ gap ++ chr ";" :: post)
    columns f (length pre) a =
  Some ((length pre + length (rows_text rws) + length gap + 1)%nat,
        feed f (map (fun rw => build_row columns (row_values rw.2)) rws) a).
Proof.
  intros Hrows Hgap.
  set (text := pre ++ rows_text rws ++ gap ++ chr ";" :: post).
  destruct (scan_rows text columns f rws pre (gap ++ chr ";" :: post)
              (length pre) [] [] a eq_refl eq_refl Hrows) as (cur' & vals' & Hscan).
  destruct (scan_end text columns f gap (pre ++ rows_text rws) post
              (length pre + length (rows_text rws)) cur' vals'
              (feed f (map (fun rw => build_row columns (row_values rw.2)) rws) a))
    as (st' & Hend & Hacc).
  { unfold text. now rewrite <- !app_assoc. }
  { now rewrite length_app. }
  { exact Hgap. }
  unfold parseValuesSection.
  rewrite (tok_result_run text columns f (length pre) a _ (Hscan _ Hend)).
  now rewrite Hacc.
Qed.



(** ** The rows the tokenizer hands over *)




Section EmittedRows.

Variable text : jsstring.
Variable columns : list jsstring.



End EmittedRows.




Section EndOffset.

Context {S : Type}.
Variable text : jsstring.
Variable columns : list jsstring.
Variable f : gmap jsstring value -> S -> S.

Lemma tok_loop_end fuel st e st' :
  tok_loop text columns f fuel st = Some (e, st') ->
  e = length text \/
  ((tok_i st < e)%nat /\ charAt text (e - 1) = Some (chr ";") /\
   inString st' = false /\ inRow st' = false).
Proof.
  revert st. induction fuel as [|fuel IH]; intros st; simpl.
  - destruct (tok_i st <? length text)%nat; [discriminate|]. intros [= <- <-]. now left.
  - destruct (tok_i st <? length text)%nat; [|intros [= <- <-]; now left].
    destruct (tok_step text columns f st) as [st1|e1 st1] eqn:Hstep.
    + intros Hloop. apply tok_step_continue in Hstep.
      destruct (IH _ Hloop) as [He|(Hlt & Hc & Hs)]; [now left|right].
      split; [lia|]. split; assumption.
    + intros [= <- <-]. apply tok_step_return in Hstep as (-> & -> & Hs & Hr & Hc).
      right. replace (tok_i st + 1 - 1)%nat with (tok_i st) by lia.
      repeat split; [lia|exact Hc|exact Hs|exact Hr].
Qed.

Lemma tok_loop_past_end fuel st :
  (length text <= tok_i st)%nat ->
  tok_loop text columns f fuel st = Some (length text, st).
Proof.
  intros Hle. apply Nat.ltb_ge in Hle. destruct fuel; simpl; now rewrite Hle.
Qed.

End EndOffset.

(** X8.  The end offset the tokenizer returns is the length of the text
    or lies just past a semicolon located at or after the start offset;
    a semicolon is only taken as the end outside strings and rows.  From
    a start offset at or beyond the end of the text nothing is emitted
    and the length of the text is returned. *)
Theorem X8_end_offset {S : Type} (f : gmap jsstring value -> S -> S)
    (text : jsstring) (columns : list jsstring) (start : nat) (a : S) :
  exists e st,
    tok_run text columns f start a = Some (e, st) /\
    parseValuesSection text columns f start a = Some (e, tok_acc st) /\
    (e = length text \/
     ((start < e <= length text)%nat /\ charAt text (e - 1) = Some (chr ";") /\
      inString st = false /\ inRow st = false)) /\
    ((length text <= start)%nat -> e = length text /\ tok_acc st = a).
Proof.
  unfold parseValuesSection, tok_run.
  destruct (tok_loop_total text columns f (length text - start) (tok_init start a))
    as (e & st & Hloop); [simpl; lia|].
  exists e, st. rewrite Hloop. split; [reflexivity|]. split; [reflexivity|]. split.
  - destruct (tok_loop_end _ _ _ _ _ _ _ Hloop) as [He|(Hlt & Hc & Hs)]; [now left|].
    right. apply tok_loop_bounds in Hloop. simpl in Hlt. repeat split; try tauto; lia.
  - intros Hle. rewrite tok_loop_past_end in Hloop by exact Hle.
    now injection Hloop as <- <-.
Qed.

(** X8 at the empty text. *)
Lemma X8_end_offset_witness :
  exists e st, tok_run [] [] collect 0 [] = Some (e, st) /\ e = 0%nat /\ tok_acc st = [].
Proof.
  destruct (X8_end_offset collect [] [] 0 []) as (e & st & Hrun & _ & _ & H).
  exists e, st. split; [exact Hrun|]. apply H. simpl. lia.
Defined.

(** ** The keys and buckets of the category map *)

Lemma trimStart_head s c : head (trimStart s) = Some c -> isWhiteSpace c = false.
Proof.
  induction s as [|a s IH]; simpl; [discriminate|].
  destruct (isWhiteSpace a) eqn:Ha; [exact IH|]. simpl. now intros [= <-].
Qed.

Lemma trimStart_suffix s : exists ws, s = ws ++ trimStart s.
Proof.
  induction s as [|a s [ws IH]]; simpl; [now exists []|].
  destruct (isWhiteSpace a); [|now exists []].
  exists (a :: ws). simpl. now rewrite <- IH.
Qed.

Lemma trimEnd_prefix s : exists ws, s = trimEnd s ++ ws.
Proof.
  unfold trimEnd. destruct (trimStart_suffix (rev s)) as [ws Hws].
  exists (rev ws). rewrite <- rev_app_distr, <- Hws. now rewrite rev_involutive.
Qed.

Lemma trim_first s c : head (trim s) = Some c -> isWhiteSpace c = false.
Proof.
  unfold trim. destruct (trimEnd_prefix (trimStart s)) as [ws Hws].
  destruct (trimEnd (trimStart s)) as [|a t] eqn:Ht; simpl; [discriminate|].
  intros [= <-]. apply (trimStart_head s). rewrite Hws. reflexivity.
Qed.

Lemma trim_last s c : last (trim s) = Some c -> isWhiteSpace c = false.
Proof.
  unfold trim, trimEnd.
  pose proof (trimStart_head (rev (trimStart s))) as Hhead.
  destruct (trimStart (rev (trimStart s))) as [|a t]; simpl; [discriminate|].
  rewrite last_snoc. intros [= <-]. now apply Hhead.
Qed.

Lemma trim_elem s c : c ∈ trim s -> c ∈ s.
Proof.
  unfold trim. intros Hc.
  destruct (trimEnd_prefix (trimStart s)) as [ws Hws].
  destruct (trimStart_suffix s) as [ws' Hws'].
  rewrite Hws'. apply elem_of_app. right.
  rewrite Hws. apply elem_of_app. now left.
Qed.

Lemma before_first_free sep s : sep ∉ before_first sep s.
Proof.
  induction s as [|c s IH]; simpl; [apply not_elem_of_nil|].
  destruct (Z.eqb_spec c sep) as [->|Hne]; [apply not_elem_of_nil|].
  apply not_elem_of_cons. split; [congruence|exact IH].
Qed.

(** A bucket key is not empty, neither starts nor ends with white space
    and holds no dot. *)
Lemma bucket_key_form row k :
  bucket_key row = Some k ->
  exists c d,
    head k = Some c /\ last k = Some d /\
    isWhiteSpace c = false /\ isWhiteSpace d = false /\ chr "." ∉ k.
Proof.
  unfold bucket_key. destruct (category_value row) as [| |s]; try discriminate.
  simpl. case_bool_decide as Hk; [discriminate|]. intros [= <-].
  set (key := trim (before_first (chr ".") s)) in *.
  destruct (head key) as [c|] eqn:Hc; [|destruct key; [congruence|discriminate]].
  destruct (last key) as [d|] eqn:Hd;
    [|apply last_None in Hd; congruence].
  exists c, d. repeat split.
  - now apply (trim_first (before_first (chr ".") s)).
  - now apply (trim_last (before_first (chr ".") s)).
  - intros Hdot. apply trim_elem in Hdot. now apply before_first_free in Hdot.
Qed.

Lemma push_absent m k x : k ∉ m.*1 -> JsMap.push m k x = m.
Proof.
  induction m as [|[k' v] m IH]; csimpl; [reflexivity|].
  rewrite not_elem_of_cons. intros [Hne Hnot].
  rewrite bool_decide_eq_false_2 by congruence. now rewrite IH.
Qed.

Lemma push_nonempty m k x :
  Forall (fun e => e.2 <> []) m -> Forall (fun e => e.2 <> []) (JsMap.push m k x).
Proof.
  induction m as [|[k' v] m IH]; simpl; intros H; [constructor|].
  inversion H as [|? ? Hv Hm]; subst. case_bool_decide.
  - constructor; [simpl; now destruct v|exact Hm].
  - constructor; [exact Hv|now apply IH].
Qed.

Lemma add_item_nonempty m k x :
  Forall (fun e => e.2 <> []) m -> Forall (fun e => e.2 <> []) (add_item m k x).
Proof.
  intros Hm. unfold add_item. destruct (JsMap.has m k) eqn:Hhas.
  - now apply push_nonempty.
  - apply JsMapFacts.has_false in Hhas. rewrite (JsMapFacts.set_new _ _ _ Hhas).
    assert (Hpush : JsMap.push (m ++ [(k, [])]) k x = m ++ [(k, [x])]).
    { clear Hm. induction m as [|[k' v] m IH]; csimpl.
      - now rewrite bool_decide_eq_true_2.
      - csimpl in Hhas. apply not_elem_of_cons in Hhas as [Hne Hnot].
        rewrite bool_decide_eq_false_2 by congruence. now rewrite IH. }
    rewrite Hpush. apply Forall_app. split; [exact Hm|]. now repeat constructor.
Qed.

Lemma group_into_nonempty entries : forall m,
  Forall (fun e => e.2 <> []) m ->
  Forall (fun e => e.2 <> []) (group_into m entries).
Proof.
  unfold group_into. induction entries as [|e entries IH]; intros m Hm; simpl;
    [exact Hm|].
  apply IH. now apply add_item_nonempty.
Qed.

Lemma nonempty_buckets_count m :
  Forall (fun e => e.2 <> []) m -> (length m <= total_items m)%nat.
Proof.
  unfold total_items. induction m as [|[k v] m IH]; simpl; intros H; [lia|].
  inversion H as [|? ? Hv Hm]; subst. simpl in Hv. specialize (IH Hm).
  destruct v; [congruence|simpl; lia].
Qed.

(** The statement counter only grows, and when it did not grow no
    statement was tokenized. *)
Lemma split_loop_count {S : Type} (f : gmap jsstring value -> S -> S) text fuel :
  forall lastIndex n a n' a',
    split_loop f text fuel lastIndex n a = Some (n', a') ->
    (n <= n')%nat /\ (n' = n -> a' = a).
Proof.
  induction fuel as [|fuel IH]; intros lastIndex n a n' a'; simpl.
  - destruct (Regex.exec _ _ _) as [[g v]|]; [discriminate|].
    intros [= <- <-]. split; [lia|reflexivity].
  - destruct (Regex.exec _ _ _) as [[g v]|]; [|intros [= <- <-]; split; [lia|reflexivity]].
    destruct (parseValuesSection _ _ _ _ _) as [[e a1]|]; [|discriminate].
    intros H. apply IH in H as [Hle _]. split; lia.
Qed.

(** X9.  After every parse, each key of the category map is a non-empty
    string that neither starts nor ends with white space and holds no
    dot. *)
Theorem X9_key_form (text : jsstring) :
  exists p,
    splitSqlByCategory text = Some p /\
    Forall (fun k : jsstring =>
              exists c d,
                head k = Some c /\ last k = Some d /\
                isWhiteSpace c = false /\ isWhiteSpace d = false /\ chr "." ∉ k)
      (parsed_map p).*1.
Proof.
  destruct (parse_summary text) as (n & emitted & _ & Hsplit).
  eexists. split; [exact Hsplit|]. cbn [parsed_map].
  rewrite group_keys. apply Forall_forall. intros k Hk.
  apply elem_of_first_seen, list_elem_of_fmap in Hk as ([k' x] & -> & Hin).
  apply list_elem_of_omap in Hin as (row & _ & Hrow).
  unfold entry_of in Hrow. destruct (bucket_key row) as [k|] eqn:Hkey; [|discriminate].
  injection Hrow as <- <-. simpl. now apply (bucket_key_form row).
Qed.

(** X10.  After every parse no bucket of the category map is empty, the
    number of categories is at most the number of rows, and a parse that
    found no statement found no row and no category. *)
Theorem X10_buckets (text : jsstring) :
  exists p,
    splitSqlByCategory text = Some p /\
    Forall (fun e : jsstring * list item => e.2 <> []) (parsed_map p) /\
    (categories (parsed_stats p) <= rows (parsed_stats p))%nat /\
    (inserts (parsed_stats p) = 0%nat ->
     rows (parsed_stats p) = 0%nat /\ parsed_map p = []).
Proof.
  destruct (parse_summary text) as (n & emitted & Hrows & Hsplit).
  eexists. split; [exact Hsplit|]. cbn [parsed_map parsed_stats rows categories inserts].
  assert (Hne : Forall (fun e : jsstring * list item => e.2 <> [])
                  (group_into [] (omap entry_of emitted)))
    by (apply group_into_nonempty; constructor).
  split; [exact Hne|]. split.
  - apply nonempty_buckets_count in Hne. rewrite group_total in Hne.
    pose proof (omap_length_le entry_of emitted). unfold JsMap.size. lia.
  - intros ->. unfold all_rows in Hrows.
    destruct (split_loop collect text (length text) 0 0 []) as [[n' em]|] eqn:Hloop;
      [|discriminate].
    injection Hrows as ->.
    unfold splitSqlByCategory in Hsplit.
    pose proof (split_loop_feed text onRow (AggState 0 []) (length text) 0 0 []) as Hfeed.
    rewrite Hloop in Hfeed. cbn [feed fold_left] in Hfeed. rewrite Hfeed in Hsplit.
    injection Hsplit as _ Hn _ _. subst n'.
    apply split_loop_count in Hloop as [_ Hsame]. rewrite (Hsame eq_refl). now split.
Qed.

(** X10 at a text without any statement. *)
Lemma X10_buckets_witness :
  exists p,
    splitSqlByCategory (str "SELECT 1;") = Some p /\
    rows (parsed_stats p) = 0%nat /\ parsed_map p = [].
Proof.
  destruct (X10_buckets (str "SELECT 1;")) as (p & Hp & _ & _ & H).
  exists p. split; [exact Hp|]. apply H.
  vm_compute in Hp. injection Hp as <-. reflexivity.
Defined.

(** X11.  The item a record contributes takes [short] from [answer] and
    [full] from [description] when these are strings, each falls back to
    the other field, and both are the empty string when neither field is
    a string; after every parse [short] and [full] of every item are
    strings. *)
Theorem X11_short_and_full (row : gmap jsstring value) (st : agg_state)
    (text : jsstring) :
  let ans := prop row (str "answer") in
  let des := prop row (str "description") in
  (forall k,
      bucket_key row = Some k ->
      exists x,
        JsMap.get (categoryMap (onRow row st)) k =
          Some (default [] (JsMap.get (categoryMap st) k) ++ [x]) /\
        (forall s, ans = VString s -> short x = VString s) /\
        (forall s, des = VString s -> full x = VString s) /\
        (absent ans -> short x = full x) /\
        (absent des -> full x = short x) /\
        (absent ans -> absent des -> short x = VString [])) /\
  (exists p,
      splitSqlByCategory text = Some p /\
      Forall (fun e : jsstring * list item =>
                Forall (fun x => (exists s, short x = VString s) /\
                                 (exists s, full x = VString s)) e.2)
        (parsed_map p)).
Proof.
  intros ans des. split.
  - intros k Hk. exists (item_of row).
    assert (He : entry_of row = Some (k, item_of row)).
    { unfold entry_of. now rewrite Hk. }
    destruct (onRow_place row st _ _ He) as (Hget & _ & _).
    split; [exact Hget|]. unfold item_of, absent; simpl. fold ans des.
    repeat split.
    + now intros s ->.
    + now intros s ->.
    + intros [-> | ->]; now destruct des.
    + intros [-> | ->]; now destruct ans.
    + now intros [-> | ->] [-> | ->].
  - destruct (parse_summary text) as (n & emitted & _ & Hsplit).
    eexists. split; [exact Hsplit|]. cbn [parsed_map].
    apply group_into_Forall; [|constructor].
    apply Forall_forall. intros [k x] Hin. simpl.
    apply list_elem_of_omap in Hin as (r & _ & Hr).
    unfold entry_of in Hr. destruct (bucket_key r); [|discriminate].
    injection Hr as _ <-. unfold item_of; simpl.
    destruct (prop r (str "answer")), (prop r (str "description")); simpl; eauto.
Qed.

(** X11 at the record {cat_id: "3", description: "Because."}. *)
Lemma X11_short_and_full_witness :
  exists x,
    JsMap.get
      (categoryMap
         (onRow (row_of [field "cat_id" (VString (str "3"));
                         field "description" (VString (str "Because."))])
            (AggState 0 [])))
      (str "3") = Some [x] /\
    short x = full x.
Proof.
  destruct (X11_short_and_full
              (row_of [field "cat_id" (VString (str "3"));
                       field "description" (VString (str "Because."))])
              (AggState 0 []) []) as [H _].
  destruct (H (str "3")) as (x & Hget & _ & _ & Heq & _); [vm_compute; reflexivity|].
  exists x. split; [exact Hget|]. apply Heq. left. vm_compute. reflexivity.
Defined.

(** ** The column list *)

Lemma split_free sep s : Forall (fun seg => sep ∉ seg) (split sep s).
Proof.
  induction s as [|c s IH]; simpl.
  - constructor; [apply not_elem_of_nil|constructor].
  - destruct (Z.eqb_spec c sep) as [->|Hne].
    + constructor; [apply not_elem_of_nil|exact IH].
    + destruct (split sep s) as [|seg segs]; [repeat constructor|].
      * apply not_elem_of_cons. split; [congruence|apply not_elem_of_nil].
      * inversion IH; subst. constructor; [|assumption].
        apply not_elem_of_cons. split; [congruence|assumption].
Qed.

Lemma split_app sep a b :
  sep ∉ a -> split sep (a ++ sep :: b) = a :: split sep b.
Proof.
  induction a as [|c a IH]; simpl; intros Ha.
  - now rewrite Z.eqb_refl.
  - apply not_elem_of_cons in Ha as [Hne Ha].
    destruct (Z.eqb_spec c sep) as [->|_]; [congruence|]. now rewrite IH.
Qed.

Lemma split_one sep a : sep ∉ a -> split sep a = [a].
Proof.
  induction a as [|c a IH]; simpl; intros Ha; [reflexivity|].
  apply not_elem_of_cons in Ha as [Hne Ha].
  destruct (Z.eqb_spec c sep) as [->|_]; [congruence|]. now rewrite IH.
Qed.

Lemma trimStart_id c s : isWhiteSpace c = false -> trimStart (c :: s) = c :: s.
Proof. intros H. simpl. now rewrite H. Qed.

Lemma trimEnd_id s c : isWhiteSpace c = false -> trimEnd (s ++ [c]) = s ++ [c].
Proof.
  intros H. unfold trimEnd. rewrite rev_app_distr. simpl. rewrite H.
  simpl. now rewrite rev_involutive.
Qed.

Lemma filter_keep {A : Type} (P : A -> Prop) `{forall x, Decision (P x)} (l : list A) :
  Forall P l -> filter P l = l.
Proof.
  induction 1 as [|x l Hx Hl IH]; [reflexivity|].
  rewrite filter_cons_True by exact Hx. now rewrite IH.
Qed.

Lemma name_char_spec c :
  name_char c = true ->
  isWhiteSpace c = false /\ c <> chr "," /\ c <> chr "`".
Proof.
  unfold name_char. rewrite negb_true_iff, !orb_false_iff.
  intros [[H1 H2] H3]. apply Z.eqb_neq in H2, H3. tauto.
Qed.

(** A ticked name, with or without a space before it, is read back. *)
Lemma column_of_tick name lead :
  name_ok name = true -> lead = [] \/ lead = [chr " "] ->
  filter (fun c => c <> chr "`") (trim (lead ++ tick name)) = name.
Proof.
  intros Hok Hlead. unfold name_ok in Hok. apply andb_prop in Hok as [_ Hchars].
  assert (Htrim : trim (lead ++ tick name) = tick name).
  { unfold trim.
    assert (Hstart : trimStart (lead ++ tick name) = tick name)
      by (destruct Hlead as [-> | ->]; reflexivity).
    rewrite Hstart. unfold tick.
    change (chr "`" :: name ++ [chr "`"]) with ((chr "`" :: name) ++ [chr "`"]).
    now apply trimEnd_id. }
  rewrite Htrim. unfold tick.
  rewrite filter_cons_False by (intros Hc; now apply Hc).
  rewrite filter_app, (filter_cons_False _ (chr "`") []) by (intros Hc; now apply Hc).
  rewrite app_nil_r. apply filter_keep.
  apply Forall_forall. intros c Hc.
  rewrite forallb_forall in Hchars. apply list_elem_of_In, Hchars in Hc.
  now apply name_char_spec in Hc as (_ & _ & Hc).
Qed.

Lemma tick_no_comma name : name_ok name = true -> chr "," ∉ tick name.
Proof.
  intros Hok. unfold name_ok in Hok. apply andb_prop in Hok as [_ Hchars].
  rewrite forallb_forall in Hchars. unfold tick.
  rewrite not_elem_of_cons, elem_of_app, list_elem_of_singleton.
  split; [vm_compute; discriminate|].
  intros [Hc|Hc]; [|vm_compute in Hc; discriminate].
  apply list_elem_of_In, Hchars, name_char_spec in Hc as (_ & Hc & _). now apply Hc.
Qed.

Lemma columns_of_text names : forall lead,
  forallb name_ok names = true -> names <> [] -> lead = [] \/ lead = [chr " "] ->
  filter (fun col => col <> [])
    (map (fun col => filter (fun c => c <> chr "`") (trim col))
       (split (chr ",") (lead ++ cols_text names))) = names.
Proof.
  induction names as [|n rest IH]; intros lead Hok Hne Hlead; [congruence|].
  simpl in Hok. apply andb_prop in Hok as [Hn Hrest].
  assert (Hnn : n <> []).
  { unfold name_ok in Hn. apply andb_prop in Hn as [Hn _].
    now apply negb_true_iff, bool_decide_eq_false in Hn. }
  assert (Hfree : chr "," ∉ lead ++ tick n).
  { rewrite elem_of_app. intros [Hc|Hc]; [|now apply (tick_no_comma n Hn)].
    destruct Hlead as [-> | ->]; [now apply not_elem_of_nil in Hc|].
    apply list_elem_of_singleton in Hc. vm_compute in Hc. discriminate. }
  destruct rest as [|n2 rest].
  - simpl cols_text. rewrite (split_one _ _ Hfree). simpl map.
    rewrite (column_of_tick n lead Hn Hlead).
    rewrite filter_cons_True by exact Hnn. reflexivity.
  - change (cols_text (n :: n2 :: rest))
      with (tick n ++ chr "," :: [chr " "] ++ cols_text (n2 :: rest)).
    rewrite app_assoc, (split_app _ _ _ Hfree), map_cons.
    rewrite (column_of_tick n lead Hn Hlead).
    rewrite filter_cons_True by exact Hnn.
    f_equal. apply (IH [chr " "] Hrest); [discriminate|now right].
Qed.

(** X12.  Every column [parseSqlColumns] returns is a non-empty string
    without comma and without backtick; and a list of names free of white
    space, commas and backticks, written between backticks and separated
    by a comma and a space, is read back as it is. *)
Theorem X12_columns (columnsText : jsstring) (names : list jsstring) :
  Forall (fun col : jsstring => col <> [] /\ (chr "," ∉ col) /\ (chr "`" ∉ col))
    (parseSqlColumns columnsText) /\
  (forallb name_ok names = true -> parseSqlColumns (cols_text names) = names).
Proof.
  split.
  - unfold parseSqlColumns. apply Forall_forall. intros col Hcol.
    apply list_elem_of_filter in Hcol as [Hne Hcol].
    apply list_elem_of_fmap in Hcol as (seg & -> & Hseg).
    split; [exact Hne|]. split.
    + intros Hc. apply list_elem_of_filter in Hc as [_ Hc]. apply trim_elem in Hc.
      pose proof (split_free (chr ",") columnsText) as Hfree.
      rewrite Forall_forall in Hfree. now apply (Hfree seg Hseg).
    + intros Hc. apply list_elem_of_filter in Hc as [Hc _]. now apply Hc.
  - intros Hok. destruct names as [|n rest]; [reflexivity|].
    apply (columns_of_text (n :: rest) [] Hok); [discriminate|now left].
Qed.

(** X12 at the names of the second scenario. *)
Lemma X12_columns_witness :
  parseSqlColumns (str "`category_id`, `question`, `answer`") = c2_columns.
Proof.
  destruct (X12_columns [] c2_columns) as [_ H]. apply H. reflexivity.
Defined.

(** ** File names *)

Lemma replace_runs_chars (p q : codeunit -> bool) s :
  q (chr "_") = true ->
  (forall c, c ∈ s -> p c = false -> q c = true) ->
  forallb q (replace_runs p s) = true.
Proof.
  intros Hus. induction s as [|c s IH]; intros Hs; [reflexivity|].
  assert (IH' : forallb q (replace_runs p s) = true).
  { apply IH. intros d Hd. apply Hs. now right. }
  cbn [replace_runs]. destruct (p c) eqn:Hc.
  - destruct s as [|c' s]; [cbn [forallb]; now rewrite Hus|].
    destruct (p c'); [exact IH'|]. cbn [forallb]. now rewrite Hus, IH'.
  - cbn [forallb]. rewrite IH', andb_true_r. apply Hs; [now left|exact Hc].
Qed.

Lemma double_underscore_cons a b t :
  double_underscore (a :: b :: t) =
  (isUnderscore a && isUnderscore b) || double_underscore (b :: t).
Proof. reflexivity. Qed.

Lemma replace_runs_single s : double_underscore (replace_runs isUnderscore s) = false.
Proof.
  induction s as [|c s IH]; [reflexivity|].
  cbn [replace_runs]. destruct (isUnderscore c) eqn:Hc.
  - destruct s as [|c' s]; [reflexivity|].
    destruct (isUnderscore c') eqn:Hc'; [exact IH|].
    cbn [replace_runs] in IH |- *. rewrite Hc' in IH |- *.
    now rewrite double_underscore_cons, Hc', andb_false_r, IH.
  - destruct (replace_runs isUnderscore s) as [|b t]; [reflexivity|].
    now rewrite double_underscore_cons, Hc, IH.
Qed.

Lemma replace_runs_none p s : forallb (fun c => negb (p c)) s = true -> replace_runs p s = s.
Proof.
  induction s as [|c s IH]; simpl; [reflexivity|].
  intros H. apply andb_prop in H as [Hc Hs]. apply negb_true_iff in Hc.
  rewrite Hc. now rewrite IH.
Qed.

Lemma replace_runs_singles s :
  double_underscore s = false -> replace_runs isUnderscore s = s.
Proof.
  induction s as [|c s IH]; [reflexivity|].
  destruct s as [|c' s].
  - intros _. cbn [replace_runs]. destruct (isUnderscore c) eqn:Hc; [|reflexivity].
    apply Z.eqb_eq in Hc. now subst.
  - rewrite double_underscore_cons. intros H.
    apply orb_false_iff in H as [Hpair Hrest].
    change (replace_runs isUnderscore (c :: c' :: s))
      with (if isUnderscore c
            then if isUnderscore c' then replace_runs isUnderscore (c' :: s)
                 else chr "_" :: replace_runs isUnderscore (c' :: s)
            else c :: replace_runs isUnderscore (c' :: s)).
    rewrite (IH Hrest). destruct (isUnderscore c) eqn:Hc; [|reflexivity].
    simpl in Hpair. rewrite Hpair. apply Z.eqb_eq in Hc. now subst.
Qed.

Lemma skip_run_suffix p s : exists run, s = run ++ skip_run p s.
Proof.
  induction s as [|a s [run IH]]; simpl; [now exists []|].
  destruct (p a); [|now exists []].
  exists (a :: run). simpl. now rewrite <- IH.
Qed.

Lemma skip_run_head p s c : head (skip_run p s) = Some c -> p c = false.
Proof.
  induction s as [|a s IH]; simpl; [discriminate|].
  destruct (p a) eqn:Ha; [exact IH|]. simpl. now intros [= <-].
Qed.

Lemma drop_last_run_prefix p s : exists run, s = drop_last_run p s ++ run.
Proof.
  unfold drop_last_run. destruct (skip_run_suffix p (rev s)) as [run Hrun].
  exists (rev run). rewrite <- rev_app_distr, <- Hrun. now rewrite rev_involutive.
Qed.

Lemma drop_last_run_last p s c : last (drop_last_run p s) = Some c -> p c = false.
Proof.
  unfold drop_last_run. pose proof (skip_run_head p (rev s)) as Hhead.
  destruct (skip_run p (rev s)) as [|a t]; simpl; [discriminate|].
  rewrite last_snoc. intros [= <-]. now apply Hhead.
Qed.

Lemma double_underscore_prefix a b :
  double_underscore (a ++ b) = false -> double_underscore a = false.
Proof.
  induction a as [|x a IH]; [reflexivity|].
  destruct a as [|y a]; [reflexivity|].
  cbn [app] in *. rewrite !double_underscore_cons.
  intros H. apply orb_false_iff in H as [Hxy Hrest].
  rewrite Hxy. simpl. now apply IH.
Qed.

Lemma double_underscore_suffix a b :
  double_underscore (a ++ b) = false -> double_underscore b = false.
Proof.
  induction a as [|x a IH]; [now intros|].
  cbn [app]. destruct (a ++ b) as [|y t] eqn:Hab.
  - destruct a; [simpl in Hab; now subst|discriminate].
  - rewrite double_underscore_cons. intros H.
    apply orb_false_iff in H as [_ Hrest]. now apply IH.
Qed.

Lemma skip_run_id p s : (forall c, head s = Some c -> p c = false) -> skip_run p s = s.
Proof. destruct s as [|a s]; simpl; [reflexivity|]. intros H. now rewrite (H a). Qed.

Lemma drop_last_run_id p s :
  (forall c, last s = Some c -> p c = false) -> drop_last_run p s = s.
Proof.
  intros H. unfold drop_last_run.
  rewrite skip_run_id; [apply rev_involutive|].
  intros c Hc. apply H. destruct s as [|a s] using rev_ind; [discriminate|].
  rewrite rev_app_distr in Hc. simpl in Hc. rewrite last_snoc. exact Hc.
Qed.

Lemma isUnderscore_false c : isUnderscore c = false <-> c <> chr "_".
Proof. apply Z.eqb_neq. Qed.

(** What the three replacements leave when something is left. *)
Lemma cleaned_clean s :
  let cleaned :=
    drop_last_run isUnderscore
      (skip_run isUnderscore
         (replace_runs isUnderscore (replace_runs (fun c => negb (isNameChar c)) s))) in
  cleaned <> [] -> clean_name cleaned.
Proof.
  intros cleaned Hne.
  set (s1 := replace_runs (fun c => negb (isNameChar c)) s) in *.
  set (s2 := replace_runs isUnderscore s1) in *.
  set (s3 := skip_run isUnderscore s2) in *.
  destruct (skip_run_suffix isUnderscore s2) as [r1 Hr1]. fold s3 in Hr1.
  destruct (drop_last_run_prefix isUnderscore s3) as [r2 Hr2]. fold cleaned in Hr2.
  assert (H1 : forallb isNameChar s1 = true).
  { apply replace_runs_chars; [reflexivity|].
    intros c _ Hc. now apply negb_false_iff in Hc. }
  assert (H2 : forallb isNameChar s2 = true).
  { apply replace_runs_chars; [reflexivity|].
    intros c Hc _. rewrite forallb_forall in H1. now apply H1, list_elem_of_In. }
  assert (D2 : double_underscore s2 = false) by apply replace_runs_single.
  repeat split.
  - exact Hne.
  - rewrite Hr1, forallb_app in H2. apply andb_prop in H2 as [_ H3].
    rewrite Hr2, forallb_app in H3. now apply andb_prop in H3 as [H3 _].
  - rewrite Hr1 in D2. apply double_underscore_suffix in D2.
    rewrite Hr2 in D2. now apply double_underscore_prefix in D2.
  - intros Hhead.
    assert (Hs3 : head s3 = Some (chr "_")).
    { rewrite Hr2. destruct cleaned; [discriminate|exact Hhead]. }
    now apply skip_run_head in Hs3.
  - intros Hlast. now apply drop_last_run_last in Hlast.
Qed.

Lemma file_clean : clean_name (str "file").
Proof. repeat split; vm_compute; discriminate. Qed.

(** X13.  [sanitizeFileName] always returns a non-empty name made of
    ASCII letters, digits, underscores, dots and hyphens, without two
    underscores in a row and without an underscore at either end; for
    [undefined], [null], the empty string and a string that has no such
    character left it returns "file". *)
Theorem X13_sanitized_name (name : value) :
  clean_name (sanitizeFileName name) /\
  (sanitizeFileName VUndefined = str "file" /\
   sanitizeFileName VNull = str "file" /\
   sanitizeFileName (VString []) = str "file").
Proof.
  split; [|repeat split].
  destruct name as [| |s]; simpl; try apply file_clean.
  case_bool_decide; [apply file_clean|].
  case_bool_decide as Hc; [apply file_clean|].
  now apply cleaned_clean.
Qed.

(** X14.  A name that is not empty, is made of letters, digits,
    underscores, dots and hyphens, has no two underscores in a row and no
    underscore at either end is returned unchanged; hence sanitizing
    twice gives the same as sanitizing once. *)
Theorem X14_sanitize_idempotent (name : value) (s : jsstring) :
  (clean_name s -> sanitizeFileName (VString s) = s) /\
  sanitizeFileName (VString (sanitizeFileName name)) = sanitizeFileName name.
Proof.
  assert (Hfix : forall t, clean_name t -> sanitizeFileName (VString t) = t).
  { intros t (Hne & Hchars & Hdouble & Hhead & Hlast). unfold sanitizeFileName.
    rewrite bool_decide_eq_false_2 by exact Hne.
    rewrite (replace_runs_none (fun c => negb (isNameChar c)) t).
    - rewrite (replace_runs_singles _ Hdouble).
      rewrite skip_run_id.
      + rewrite drop_last_run_id.
        * now rewrite bool_decide_eq_false_2.
        * intros c Hc. apply isUnderscore_false. intros Heq.
          apply Hlast. rewrite Heq in Hc. exact Hc.
      + intros c Hc. apply isUnderscore_false. intros Heq.
        apply Hhead. rewrite Heq in Hc. exact Hc.
    - rewrite forallb_forall in Hchars |- *. intros c Hc.
      now rewrite (Hchars c Hc). }
  split; [apply Hfix|].
  apply Hfix. destruct name as [| |t]; simpl; try apply file_clean.
  case_bool_decide; [apply file_clean|].
  case_bool_decide as Hc; [apply file_clean|].
  now apply cleaned_clean.
Qed.

(** X14 at the name "dump_2024.sql". *)
Lemma X14_sanitize_idempotent_witness :
  sanitizeFileName (VString (str "dump_2024.sql")) = str "dump_2024.sql".
Proof.
  destruct (X14_sanitize_idempotent VNull (str "dump_2024.sql")) as [H _].
  apply H. repeat split; vm_compute; discriminate.
Defined.

(** ** The URL of the file *)

Lemma skip_run_split p s :
  exists run, s = run ++ skip_run p s /\ forallb p run = true.
Proof.
  induction s as [|a s (run & IH & Hrun)]; simpl; [now exists []|].
  destruct (p a) eqn:Ha; [|now exists []].
  exists (a :: run). simpl. rewrite Ha, Hrun. split; [now rewrite <- IH|reflexivity].
Qed.

Lemma drop_last_run_split p s :
  exists run, s = drop_last_run p s ++ run /\ forallb p run = true.
Proof.
  unfold drop_last_run. destruct (skip_run_split p (rev s)) as (run & Hrun & Hp).
  exists (rev run). split.
  - rewrite <- rev_app_distr, <- Hrun. now rewrite rev_involutive.
  - rewrite forallb_forall in Hp |- *. intros c Hc. apply Hp. now apply in_rev.
Qed.

(** X15.  The URL [handler] downloads from is never the empty string:
    choosing it fails with the missing-URL message exactly when the four
    URL fields are all absent or empty and the base URL or the file name
    is; and a URL joined from a base and a file name has the base without
    its trailing slashes, one slash, and the file name without its
    leading slashes. *)
Theorem X15_file_url (u : url_fields) (base name : jsstring) :
  (forall url, select_file_url u = inl url -> url <> []) /\
  (select_file_url u = inr missing_url <->
   falsy (originFileUrl u) = true /\ falsy (payloadFileUrl u) = true /\
   falsy (sourceFileUrl u) = true /\ falsy (simulatorFileUrl u) = true /\
   (falsy (simulatorBaseUrl u) = true \/ falsy (fileName u) = true)) /\
  (exists b n slashes slashes',
      join_url base name = b ++ chr "/" :: n /\
      base = b ++ slashes /\ name = slashes' ++ n /\
      last b <> Some (chr "/") /\ head n <> Some (chr "/") /\
      forallb isSlash slashes = true /\ forallb isSlash slashes' = true).
Proof.
  split; [|split].
  - unfold select_file_url. intros url.
    destruct (falsy (js_or _ _)) eqn:Hf; [discriminate|]. intros [= <-].
    destruct (js_or _ _) as [| |s]; try discriminate. simpl in *.
    now apply bool_decide_eq_false in Hf.
  - unfold select_file_url, js_or.
    destruct (falsy (originFileUrl u)) eqn:H1.
    2:{ rewrite H1. split; [discriminate|intros [? _]; discriminate]. }
    destruct (falsy (payloadFileUrl u)) eqn:H2.
    2:{ rewrite H2. split; [discriminate|intros (_ & ? & _); discriminate]. }
    destruct (falsy (sourceFileUrl u)) eqn:H3.
    2:{ rewrite H3. split; [discriminate|intros (_ & _ & ? & _); discriminate]. }
    destruct (falsy (simulatorFileUrl u)) eqn:H4.
    2:{ rewrite H4. split; [discriminate|intros (_ & _ & _ & ? & _); discriminate]. }
    destruct (falsy (simulatorBaseUrl u)) eqn:H5; simpl.
    { split; [intros _; repeat split; now left|reflexivity]. }
    destruct (falsy (fileName u)) eqn:H6; simpl.
    { split; [intros _; repeat split; now right|reflexivity]. }
    rewrite bool_decide_eq_false_2.
    + split; [discriminate|intros (_ & _ & _ & _ & [?|?]); discriminate].
    + unfold join_url. now destruct (drop_last_run isSlash _).
  - destruct (drop_last_run_split isSlash base) as (sl & Hsl & Hp).
    destruct (skip_run_split isSlash name) as (sl' & Hsl' & Hp').
    exists (drop_last_run isSlash base), (skip_run isSlash name), sl, sl'.
    split; [reflexivity|]. split; [exact Hsl|]. split; [exact Hsl'|].
    split; [|split; [|split]]; [| |exact Hp|exact Hp'].
    + intros H. apply drop_last_run_last in H. vm_compute in H. discriminate.
    + intros H. apply skip_run_head in H. vm_compute in H. discriminate.
Qed.

(** X15 at the base "https://host/files//" and the name "/dump.sql". *)
Lemma X15_file_url_witness :
  select_file_url
    (UrlFields VUndefined VNull (VString []) VUndefined
       (VString (str "https://host/files//")) (VString (str "/dump.sql"))) =
  inl (str "https://host/files/dump.sql").
Proof.
  destruct (X15_file_url
              (UrlFields VUndefined VNull (VString []) VUndefined
                 (VString (str "https://host/files//")) (VString (str "/dump.sql")))
              [] []) as (Hne & _ & _).
  destruct (select_file_url _) as [url|msg] eqn:Hsel.
  - pose proof (Hne url eq_refl) as _. vm_compute in Hsel.
    injection Hsel as <-. reflexivity.
  - vm_compute in Hsel. discriminate.
Defined.

(** ** Polling *)





(** ** A whole dump *)

(** White space is taken by a starred class up to the first other
    character. *)
Lemma greedy_white k ws : forall rest pos r,
  forallb isWhiteSpace ws = true ->
  (forall d, head rest = Some d -> isWhiteSpace d = false) ->
  k rest (pos + length ws)%nat = Some r ->
  Regex.greedy isWhiteSpace k (ws ++ rest) pos = Some r.
Proof.
  induction ws as [|c ws IH]; intros rest pos r Hws Hrest Hk.
  - simpl in Hk. rewrite Nat.add_0_r in Hk. simpl.
    destruct rest as [|d rest]; simpl; [exact Hk|].
    now rewrite (Hrest d eq_refl).
  - simpl in Hws. apply andb_prop in Hws as [Hc Hws]. simpl. rewrite Hc.
    rewrite (IH rest (S pos) r Hws Hrest); [reflexivity|].
    rewrite <- Hk. f_equal. simpl. lia.
Qed.

(** The header is matched where it stands, up to VALUES; the match ends
    where the white space after it ends. *)
Lemma header_match tail pos r :
  Regex.greedy isWhiteSpace
    (fun s' pos' => Regex.run [] s' pos' ((15 + pos)%nat, (44 + pos)%nat))
    tail (52 + pos) = Some r ->
  Regex.run Regex.insertRegex (dump_header ++ tail) pos (0%nat, 0%nat) = Some r.
Proof.
  intros H. vm_compute in H. vm_compute. rewrite H. reflexivity.
Qed.

(** The search passes over text without the letter I. *)
Lemma search_skip pat (lead : jsstring) : forall s pos,
  forallb (fun c => negb (Regex.ci_eq c "I")) lead = true ->
  Regex.search (Regex.Chr "I" :: pat) (lead ++ s) pos =
  Regex.search (Regex.Chr "I" :: pat) s (pos + length lead).
Proof.
  induction lead as [|c lead IH]; intros s pos Hlead.
  - simpl. now rewrite Nat.add_0_r.
  - simpl in Hlead. apply andb_prop in Hlead as [Hc Hlead].
    apply negb_true_iff in Hc.
    change ((c :: lead) ++ s) with (c :: lead ++ s). cbn [Regex.search Regex.run].
    rewrite Hc, (IH s (S pos) Hlead). f_equal. simpl. lia.
Qed.

Lemma search_here pat s pos r :
  Regex.run pat s pos (0%nat, 0%nat) = Some r -> Regex.search pat s pos = Some r.
Proof. intros H. destruct s; simpl; now rewrite H. Qed.

Lemma header_exec (pre lead ws rest : jsstring) :
  forallb (fun c => negb (Regex.ci_eq c "I")) lead = true ->
  forallb isWhiteSpace ws = true ->
  (forall d, head rest = Some d -> isWhiteSpace d = false) ->
  Regex.exec Regex.insertRegex (pre ++ lead ++ dump_header ++ ws ++ rest) (length pre) =
  Some (str "category_id, question, answer",
        (length pre + length lead + 52 + length ws)%nat).
Proof.
  intros Hlead Hws Hrest. unfold Regex.exec.
  rewrite (proj2 (Nat.leb_le _ _)) by (rewrite length_app; lia).
  rewrite drop_app_length.
  change Regex.insertRegex with (Regex.Chr "I" :: skipn 1 Regex.insertRegex).
  rewrite (search_skip _ lead _ _ Hlead).
  change (Regex.Chr "I" :: skipn 1 Regex.insertRegex) with Regex.insertRegex.
  assert (Hrun : Regex.run Regex.insertRegex (dump_header ++ ws ++ rest)
                   (length pre + length lead) (0%nat, 0%nat) =
                 Some ((52 + (length pre + length lead) + length ws)%nat,
                       ((15 + (length pre + length lead))%nat,
                        (44 + (length pre + length lead))%nat))).
  { apply header_match. now apply greedy_white. }
  rewrite (search_here _ _ _ _ Hrun).
  f_equal. f_equal; [|lia].
  replace (44 + (length pre + length lead) - (15 + (length pre + length lead)))%nat
    with 29%nat by lia.
  replace (pre ++ lead ++ dump_header ++ ws ++ rest)
    with ((pre ++ lead) ++ dump_header ++ ws ++ rest) by (now rewrite <- app_assoc).
  replace (15 + (length pre + length lead))%nat with (length (pre ++ lead) + 15)%nat
    by (rewrite length_app; lia).
  rewrite drop_app_add'; reflexivity.
Qed.

Lemma exec_nothing_left text post e :
  ~ mentions_insert post -> drop e text = post -> (e <= length text)%nat ->
  Regex.exec Regex.insertRegex text e = None.
Proof.
  intros Hno Hdrop Hle. unfold Regex.exec.
  apply Nat.leb_le in Hle. rewrite Hle, Hdrop.
  change Regex.insertRegex
    with (map Regex.Chr (list_ascii_of_string "INSERT") ++ skipn 6 Regex.insertRegex).
  rewrite search_literal; [reflexivity|].
  intros i.
  destruct (starts_with_ci (list_ascii_of_string "INSERT") (drop i post)) eqn:H;
    [|reflexivity].
  exfalso. apply Hno. now exists i.
Qed.

Lemma feed_app {S : Type} (f : gmap jsstring value -> S -> S) l1 l2 a :
  feed f (l1 ++ l2) a = feed f l2 (feed f l1 a).
Proof. unfold feed. apply fold_left_app. Qed.

(** The locator loop over the statements of a dump. *)
Lemma split_loop_dump {S : Type} (f : gmap jsstring value -> S -> S) post sts :
  ~ mentions_insert post -> forallb stmt_ok sts = true ->
  forall fuel pre n a,
    (length sts <= fuel)%nat ->
    split_loop f (pre ++ flat_map stmt_text sts ++ post) fuel (length pre) n a =
    Some ((n + length sts)%nat, feed f (flat_map stmt_records sts) a).
Proof.
  intros Hpost. induction sts as [|st sts IH]; intros Hok fuel pre n a Hfuel.
  - simpl. rewrite Nat.add_0_r.
    assert (Hnone : Regex.exec Regex.insertRegex (pre ++ post) (length pre) = None).
    { apply (exec_nothing_left _ post _ Hpost); [apply drop_app_length|].
      rewrite length_app. lia. }
    destruct fuel; simpl; now rewrite Hnone.
  - simpl in Hok. apply andb_prop in Hok as [Hst Hsts].
    unfold stmt_ok in Hst.
    apply andb_prop in Hst as [Hst Hhead]. apply andb_prop in Hst as [Hst Hgap].
    apply andb_prop in Hst as [Hst Hrows]. apply andb_prop in Hst as [Hlead Hws].
    destruct fuel as [|fuel]; [simpl in Hfuel; lia|].
    destruct st as [lead ws rws gap]. simpl in Hlead, Hws, Hrows, Hgap, Hhead.
    set (tail := flat_map stmt_text sts ++ post).
    assert (Htext : pre ++ flat_map stmt_text (StmtSrc lead ws rws gap :: sts) ++ post =
                    pre ++ lead ++ dump_header ++ ws ++
                    (rows_text rws ++ gap ++ chr ";" :: tail)).
    { unfold tail. cbn [flat_map]. unfold stmt_text at 1.
      cbn [st_lead st_ws st_rows st_gap]. rewrite <- !app_assoc. reflexivity. }
    rewrite Htext. cbn [split_loop].
    rewrite (header_exec pre lead ws _ Hlead Hws).
    2:{ intros d. rewrite app_assoc.
        destruct (rows_text rws ++ gap) as [|c t]; simpl.
        - intros [= <-]. reflexivity.
        - intros [= <-]. now apply negb_true_iff in Hhead. }
    change (parseSqlColumns (str "category_id, question, answer")) with c2_columns.
    pose proof (tokenize_rows f c2_columns (pre ++ lead ++ dump_header ++ ws) rws gap tail
                  a Hrows Hgap) as Htok.
    rewrite !length_app in Htok. change (length dump_header) with 52%nat in Htok.
    rewrite <- !app_assoc in Htok.
    replace (length pre + (length lead + (52 + length ws)))%nat
      with (length pre + length lead + 52 + length ws)%nat in Htok by lia.
    rewrite Htok.
    assert (E1 : pre ++ lead ++ dump_header ++ ws ++ rows_text rws ++ gap ++ chr ";" :: tail =
                 (pre ++ stmt_text (StmtSrc lead ws rws gap)) ++ flat_map stmt_text sts ++ post).
    { unfold tail, stmt_text. cbn [st_lead st_ws st_rows st_gap].
      rewrite <- !app_assoc. reflexivity. }
    assert (E2 : (length pre + length lead + 52 + length ws + length (rows_text rws) +
                  length gap + 1)%nat = length (pre ++ stmt_text (StmtSrc lead ws rws gap))).
    { unfold stmt_text. cbn [st_lead st_ws st_rows st_gap]. rewrite !length_app.
      change (length dump_header) with 52%nat. cbn [length]. lia. }
    rewrite E1, E2, IH; [|exact Hsts|simpl in Hfuel; lia].
    f_equal. f_equal; [cbn [length]; lia|].
    cbn [flat_map]. unfold stmt_records at 2. cbn [st_rows]. now rewrite feed_app.
Qed.

Lemma stmt_text_length st : (1 <= length (stmt_text st))%nat.
Proof. unfold stmt_text. rewrite !length_app. simpl. lia. Qed.

Lemma flat_map_length_ge sts : (length sts <= length (flat_map stmt_text sts))%nat.
Proof.
  induction sts as [|st sts IH]; simpl; [lia|].
  rewrite length_app. pose proof (stmt_text_length st). lia.
Qed.

(** X17.  A dump made of statements with the header
    [INSERT INTO t (category_id, question, answer) VALUES], each with
    white space, rows of fields as written and a semicolon, and with no
    letter I between the statements nor the word INSERT after the last
    one, is parsed into as many statements, one row per row written, and
    the category map that groups the records of all rows in order. *)
Theorem X17_dump (sts : list stmt_src) (post : jsstring) :
  forallb stmt_ok sts = true -> ~ mentions_insert post ->
  let records := flat_map stmt_records sts in
  let m := group_into [] (omap entry_of records) in
  splitSqlByCategory (flat_map stmt_text sts ++ post) =
  Some (Parsed m (Stats (length sts) (length records) (JsMap.size m))).
Proof.
  intros Hok Hpost records m. unfold splitSqlByCategory.
  pose proof (split_loop_dump onRow post sts Hpost Hok
                (length (flat_map stmt_text sts ++ post)) [] 0%nat (AggState 0 [])) as H.
  simpl in H. rewrite H.
  - rewrite feed_onRow. reflexivity.
  - rewrite length_app. pose proof (flat_map_length_ge sts). lia.
Qed.

(** X17 at the dump of the second scenario. *)
Lemma X17_dump_witness :
  exists m,
    splitSqlByCategory (flat_map stmt_text c2_dump ++ []) = Some (Parsed m (Stats 1 2 2)).
Proof.
  eexists.
  apply (X17_dump c2_dump []); [reflexivity|].
  intros [i Hi]. destruct i; vm_compute in Hi; discriminate.
Defined.
